(** * proxy.py: selection of a working proxy through a persistent cache

    A shallow embedding of [Proxy.get_proxy] and its helpers
    ([_fetch_proxy], [_test_proxy_batch], [_test_single_proxy],
    [_cache_bad_proxy]) as programs of a state-and-exception monad that also
    logs the observable effects (outbound fetches, liveness checks, cache
    writes).  The remote source, whose reply is any JSON value, the proxies,
    and the order in which concurrent checks start and complete are oracles
    of a [World]. *)

From Stdlib Require Import ZArith String.
From stdpp Require Import base strings list gmap pretty.

Local Open Scope string_scope.
Local Open Scope list_scope.
Local Open Scope Z_scope.

(** ** Strings *)

(** Python's [needle in s] on [str]. *)
Fixpoint str_in (needle s : string) : bool :=
  String.prefix needle s ||
  match s with
  | EmptyString => false
  | String _ s' => str_in needle s'
  end.

(** Python's [l[0:n]]: a negative [n] counts from the end. *)
Definition slice_to {A} (l : list A) (n : Z) : list A :=
  if 0 <=? n then take (Z.to_nat n) l
  else take (length l - Z.to_nat (- n))%nat l.

(** ** The cache (diskcache.Cache) *)

(** A stored value with its absolute expiry time; [None] never expires. *)
Record entry (A : Type) := Entry { value : A; expire_time : option Z }.
Arguments Entry {A} _ _.
Arguments value {A} _.
Arguments expire_time {A} _.

Definition live {A} (now : Z) (e : entry A) : bool :=
  match expire_time e with
  | None => true
  | Some t => now <? t
  end.

(** [cache.get(key)]: the value, or [None] when absent or expired. *)
Definition slot_get {A} (now : Z) (slot : option (entry A)) : option A :=
  match slot with
  | Some e => if live now e then Some (value e) else None
  | None => None
  end.

(** [cache.set(key, v, expire=...)]: [expire] is relative to [now]. *)
Definition slot_set {A} (now : Z) (v : A) (expire : option Z) : option (entry A) :=
  Some (Entry v (Z.add now <$> expire)).

(** The three keys the program uses, each with the type of value it holds. *)
Record Cache := MkCache {
  working_proxy : option (entry string);
  http_proxies_requested : option (entry (list string));
  bad_proxies : option (entry (gset string))
}.

Definition empty_cache : Cache := MkCache None None None.

(** ** The environment *)

(** The exceptions of the program: those of the request and of the decoding
    of the reply, by name, and the two that reading the decoded reply can
    raise. *)
Inductive exn :=
| ClientError
| JSONDecodeError
| KeyError (key : string)
| TypeError
| OtherError (name : string).

(** What [response.json()] returns: any JSON value, as the Python object it
    is decoded to.  A [str] is held as its UTF-8 bytes; of a number only the
    fact that it is one matters here; a [dict] keeps its items in order, its
    keys distinct. *)
#[warnings="-register-all"]
Inductive json :=
| JNull
| JBool (b : bool)
| JNum (literal : string)
| JStr (s : string)
| JArr (items : list json)
| JObj (fields : list (string * json)).

(** What the program cannot decide: the reply to the [n]-th fetch of the
    list; the outcome of the [n]-th liveness check of a proxy; for the
    [k]-th batch the order in which its checks complete and the order in
    which they are started; the text that [str()] gives for a value that is
    not a [str]. *)
Record World := MkWorld {
  source : nat → exn + json;
  probe : nat → string → bool;
  completion : nat → nat → nat;
  scheduling : nat → nat → nat;
  render : json → string
}.

Record Config := MkConfig {
  proxy_url : option string;
  batch_size : Z;
  cache_expiry : Z
}.

Record State := MkState {
  cache : Cache;
  fetches : nat;
  probes : nat;
  batches : nat
}.

Inductive Event :=
| EvFetch (url : string)
| EvCheck (proxy : string) (is_working : bool)
| EvBatch (proxy_list : list string)
| EvSetWorking (proxy : string) (expire : option Z)
| EvSetList (proxy_list : list string) (expire : option Z)
| EvSetBad (bad : gset string) (expire : option Z)
| EvDelete (key : string).

(** ** The monad: state, exceptions, and a log of events *)

Inductive result (A : Type) :=
| Ok (a : A)
| Raise (e : exn).
Arguments Ok {A} _.
Arguments Raise {A} _.

Record Outcome (A : Type) := MkOutcome {
  res : result A;
  st : State;
  evs : list Event
}.
Arguments MkOutcome {A} _ _ _.
Arguments res {A} _.
Arguments st {A} _.
Arguments evs {A} _.

Definition M (A : Type) : Type := State → Outcome A.

Instance M_ret : MRet M := λ A a s, MkOutcome (Ok a) s [].

Instance M_bind : MBind M := λ A B f m s,
  match m s with
  | MkOutcome (Ok a) s' es =>
      match f a s' with
      | MkOutcome r s'' es' => MkOutcome r s'' (es ++ es')
      end
  | MkOutcome (Raise e) s' es => MkOutcome (Raise e) s' es
  end.

Definition raise {A} (e : exn) : M A := λ s, MkOutcome (Raise e) s [].

Definition emit (e : Event) : M unit := λ s, MkOutcome (Ok tt) s [e].

Definition get_cache : M Cache := λ s, MkOutcome (Ok (cache s)) s [].

Definition put_cache (c : Cache) : M unit := λ s,
  MkOutcome (Ok tt) (MkState c (fetches s) (probes s) (batches s)) [].

(** [asyncio.as_completed]: the tasks in the order they finish.  Any order is
    possible; [choose k] picks, among the tasks still running at step [k],
    the one that finishes next. *)
Fixpoint as_completed {A} (choose : nat → nat) (step : nat) (fuel : nat)
    (running : list A) : list A :=
  match fuel with
  | O => []
  | S fuel' =>
      let i := (choose step `mod` length running)%nat in
      match running !! i with
      | Some t => t :: as_completed choose (S step) fuel' (delete i running)
      | None => []
      end
  end.

(** [asyncio.as_completed] makes its tasks from [set(fs)]: the checks of a
    batch start in the iteration order of that set, which is any order. *)
Definition set_order {A} (choose : nat → nat) (fs : list A) : list A :=
  as_completed choose 0 (length fs) fs.

(** ** What Python does with a decoded value *)

(** [d[key]] on a [dict] whose items are [fields]. *)
Fixpoint field (key : string) (fields : list (string * json)) : option json :=
  match fields with
  | [] => None
  | (k, v) :: rest => if String.eqb k key then Some v else field key rest
  end.

(** [value[key]] with a [str] key: only a [dict] can be indexed so. *)
Definition subscript (value : json) (key : string) : exn + json :=
  match value with
  | JObj fields =>
      match field key fields with
      | Some v => inr v
      | None => inl (KeyError key)
      end
  | JNull | JBool _ | JNum _ | JStr _ | JArr _ => inl TypeError
  end.

(** [needle in container] for a [str] needle: a substring of a [str], an
    item of a [list], a key of a [dict]; other values are not containers. *)
Definition py_in (needle : string) (container : json) : exn + bool :=
  match container with
  | JStr s => inr (str_in needle s)
  | JArr items =>
      inr (existsb (λ item, match item with
                            | JStr t => String.eqb t needle
                            | _ => false
                            end) items)
  | JObj fields => inr (existsb (λ kv, String.eqb kv.1 needle) fields)
  | JNull | JBool _ | JNum _ => inl TypeError
  end.

(** [for proxy in value]: the items of a [list], the keys of a [dict], the
    characters of a [str]; other values cannot be iterated. *)
Definition py_iter (value : json) : exn + list json :=
  match value with
  | JArr items => inr items
  | JObj fields => inr (JStr <$> fields.*1)
  | JStr s => inr (JStr <$> ((λ a, String a EmptyString) <$> list_ascii_of_string s))
  | JNull | JBool _ | JNum _ => inl TypeError
  end.

(** ** The program *)

(** The test of the list comprehension of [_fetch_proxy] on a [str]. *)
Definition excluded (proxy : string) : bool :=
  str_in "172.67" proxy || str_in "172.64" proxy.

(** ['172.67' in v or '172.64' in v], on any value. *)
Definition excluded_value (v : json) : exn + bool :=
  match py_in "172.67" v with
  | inl e => inl e
  | inr true => inr true
  | inr false => py_in "172.64" v
  end.

(** The f-string [f"{v}"]: a [str] as it is, another value as [str()]
    prints it. *)
Definition format (w : World) (v : json) : string :=
  match v with
  | JStr s => s
  | JNull | JBool _ | JNum _ | JArr _ | JObj _ => render w v
  end.

(** The list comprehension of [_fetch_proxy], element by element: each
    element is read before the next, and the first exception ends it. *)
Fixpoint parse_elements (w : World) (elements : list json) : exn + list string :=
  match elements with
  | [] => inr []
  | proxy :: rest =>
      match subscript proxy "proxy" with
      | inl e => inl e
      | inr v =>
          match excluded_value v with
          | inl e => inl e
          | inr is_excluded =>
              match parse_elements w rest with
              | inl e => inl e
              | inr proxy_list =>
                  inr (if is_excluded then proxy_list
                       else format w v :: proxy_list)
              end
          end
      end
  end.

Definition parse_proxies (w : World) (response_json : json) : exn + list string :=
  match py_iter response_json with
  | inl e => inl e
  | inr elements => parse_elements w elements
  end.

(** Python's truth value of a [str | None]. *)
Definition truthy (proxy : option string) : bool :=
  match proxy with
  | Some p => negb (String.eqb p "")
  | None => false
  end.

Section Proxy.
Context (cfg : Config) (w : World).
(** The time of the call; the cache's clock does not move during it. *)
Context (now : Z).

(** *** Cache operations, logged *)

Definition get_working_proxy : M (option string) :=
  c ← get_cache; mret (slot_get now (working_proxy c)).

Definition get_http_proxies_requested : M (option (list string)) :=
  c ← get_cache; mret (slot_get now (http_proxies_requested c)).

(** [cache.get('bad_proxies', set())] *)
Definition get_bad_proxies : M (gset string) :=
  c ← get_cache; mret (default ∅ (slot_get now (bad_proxies c))).

Definition set_working_proxy (proxy : string) (expire : option Z) : M unit :=
  c ← get_cache;
  put_cache (MkCache (slot_set now proxy expire)
               (http_proxies_requested c) (bad_proxies c));;
  emit (EvSetWorking proxy expire).

Definition set_http_proxies_requested (l : list string) (expire : option Z)
    : M unit :=
  c ← get_cache;
  put_cache (MkCache (working_proxy c) (slot_set now l expire) (bad_proxies c));;
  emit (EvSetList l expire).

Definition set_bad_proxies (bad : gset string) (expire : option Z) : M unit :=
  c ← get_cache;
  put_cache (MkCache (working_proxy c) (http_proxies_requested c)
               (slot_set now bad expire));;
  emit (EvSetBad bad expire).

Definition delete_working_proxy : M unit :=
  c ← get_cache;
  put_cache (MkCache None (http_proxies_requested c) (bad_proxies c));;
  emit (EvDelete "working_proxy").

Definition delete_http_proxies_requested : M unit :=
  c ← get_cache;
  put_cache (MkCache (working_proxy c) None (bad_proxies c));;
  emit (EvDelete "http_proxies_requested").

(** *** Outbound requests *)

(** [session.get(self.proxy_url)] and [response.json()]: nothing catches
    what they raise. *)
Definition session_get_json (url : string) : M json := λ s,
  let s' := MkState (cache s) (S (fetches s)) (probes s) (batches s) in
  match source w (fetches s) with
  | inl e => MkOutcome (Raise e) s' [EvFetch url]
  | inr response_json => MkOutcome (Ok response_json) s' [EvFetch url]
  end.

(** [_test_single_proxy]: every exception of the request is caught and
    counts as not working. *)
Definition _test_single_proxy (proxy : string) : M (string * bool) := λ s,
  let is_working := probe w (probes s) proxy in
  MkOutcome (Ok (proxy, is_working))
    (MkState (cache s) (fetches s) (S (probes s)) (batches s))
    [EvCheck proxy is_working].

Definition _cache_bad_proxy (bad_proxy : string) : M unit :=
  bad ← get_bad_proxies;
  set_bad_proxies ({[bad_proxy]} ∪ bad) None.

(** *** [_test_proxy_batch] *)

(** The order in which the checks of this batch are started. *)
Definition scheduled {A} (fs : list A) : M (list A) := λ s,
  MkOutcome (Ok (set_order (scheduling w (batches s)) fs)) s [].

(** The order in which the tasks of this batch complete. *)
Definition completed {A} (tasks : list A) : M (list A) := λ s,
  MkOutcome (Ok (as_completed (completion w (batches s)) 0 (length tasks) tasks))
    (MkState (cache s) (fetches s) (probes s) (S (batches s))) [].

(** The loop over [asyncio.as_completed(tasks)]. *)
Fixpoint batch_loop (results : list (string * bool)) : M (option string) :=
  match results with
  | [] => mret None
  | (proxy, is_working) :: rest =>
      if is_working then
        set_working_proxy proxy None;;
        mret (Some proxy)
      else
        _cache_bad_proxy proxy;;
        batch_loop rest
  end.

Definition _test_proxy_batch (proxy_list : list string) : M (option string) :=
  emit (EvBatch proxy_list);;
  started ← scheduled proxy_list;
  tasks ← mapM _test_single_proxy started;
  results ← completed tasks;
  batch_loop results.

(** *** [_fetch_proxy] *)

(** [self.get_proxy()] without [await], in the branch of the empty list:
    the call only builds a coroutine object, which is dropped; the body of
    [get_proxy] does not run. *)
Definition get_proxy_not_awaited : M unit := mret tt.

(** The branch of a missing 'http_proxies_requested': fetch, filter, cache.
    Returns [(all_proxies, proxy_list)]. *)
Definition fetch_fresh (url : string) : M (list string * list string) :=
  response_json ← session_get_json url;
  proxy_list ← match parse_proxies w response_json with
               | inl e => raise e
               | inr l => mret l
               end;
  bad ← get_bad_proxies;
  let proxy_list := filter (λ proxy, proxy ∉ bad) proxy_list in
  (if bool_decide (length proxy_list = 0%nat) then
     delete_http_proxies_requested;;
     get_proxy_not_awaited
   else mret tt);;
  let all_proxies := slice_to proxy_list (batch_size cfg) in
  set_http_proxies_requested proxy_list (Some (cache_expiry cfg));;
  mret (all_proxies, proxy_list).

(** The branch of a cached list. *)
Definition fetch_cached (cached_proxies : list string)
    : M (list string * list string) :=
  bad ← get_bad_proxies;
  let filtered_proxies := filter (λ proxy, proxy ∉ bad) cached_proxies in
  let all_proxies := slice_to filtered_proxies (batch_size cfg) in
  mret (all_proxies, filtered_proxies).

(** The [while] loop: [all_proxies] is the deque, consumed from the left. *)
Fixpoint sequential_loop (all_proxies : list string) (attempts max_attempts : Z)
    : M (option string) :=
  match all_proxies with
  | [] => mret None
  | proxy :: all_proxies' =>
      if attempts <? max_attempts then
        '(_, is_working) ← _test_single_proxy proxy;
        if is_working : bool then
          set_working_proxy proxy None;;
          mret (Some proxy)
        else
          _cache_bad_proxy proxy;;
          sequential_loop all_proxies' (attempts + 1) max_attempts
      else mret None
  end.

(** What follows the choice of the candidates: the batch when there are at
    least [batch_size] of them, then the sequential loop. *)
Definition test_candidates (all_proxies : list string) : M (option string) :=
  let max_attempts := Z.min (batch_size cfg) (Z.of_nat (length all_proxies)) in
  let attempts := 0 in
  proxy ← (if batch_size cfg <=? Z.of_nat (length all_proxies)
           then _test_proxy_batch all_proxies
           else mret None);
  if truthy proxy then mret proxy
  else sequential_loop all_proxies attempts max_attempts.

Definition _fetch_proxy : M (option string) :=
  match proxy_url cfg with
  | None => mret None
  | Some url =>
      cached ← get_http_proxies_requested;
      '(all_proxies, proxy_list) ←
        match cached with
        | None => fetch_fresh url
        | Some cached_proxies => fetch_cached cached_proxies
        end;
      test_candidates all_proxies
  end.

(** *** [get_proxy] *)

Definition get_proxy : M (option string) :=
  cached ← get_working_proxy;
  match cached with
  | Some cached_proxy =>
      '(_, is_working) ← _test_single_proxy cached_proxy;
      if is_working : bool then mret (Some cached_proxy)
      else
        delete_working_proxy;;
        _fetch_proxy
  | None => _fetch_proxy
  end.
End Proxy.

(** ** Runs *)

Definition init_state (c : Cache) : State := MkState c 0 0 0.

(** The proxies the Liveness Checker was invoked on, in order. *)
Definition checked (es : list Event) : list string :=
  omap (λ e, match e with EvCheck p _ => Some p | _ => None end) es.

(** The outbound fetches of the candidate list. *)
Definition fetched (es : list Event) : list string :=
  omap (λ e, match e with EvFetch u => Some u | _ => None end) es.

(** The arguments of the invocations of the Batch Validator. *)
Definition batched (es : list Event) : list (list string) :=
  omap (λ e, match e with EvBatch l => Some l | _ => None end) es.

(** The record [{"proxy": proxy}]. *)
Definition obj (proxy : string) : json := JObj [("proxy", JStr proxy)].

(** Successive calls of [get_proxy] at the given times: the state after the
    last one, and the events of all of them. *)
Fixpoint run_calls (cfg : Config) (w : World) (times : list Z) (s : State)
    : State * list Event :=
  match times with
  | [] => (s, [])
  | t :: times' =>
      let o := get_proxy cfg w t s in
      let r := run_calls cfg w times' (st o) in
      (r.1, evs o ++ r.2)
  end.

(** ** Vocabulary of the statements *)

(** The events of testing the candidates [l], the call of the batch apart:
    checks of members of [l], and writes of 'working_proxy' and
    'bad_proxies', both without expiry. *)
Definition check_event (l : list string) (e : Event) : Prop :=
  match e with
  | EvCheck p _ => p ∈ l
  | EvSetWorking _ ex | EvSetBad _ ex => ex = None
  | EvBatch _ | EvFetch _ | EvSetList _ _ | EvDelete _ => False
  end.

(** The rest of the state a test leaves alone; the 'working_proxy' slot is
    as before, or holds without expiry a proxy for which [seen] holds. *)
Record test_post (seen : string → Prop) (s : State) (o : Outcome (option string))
    : Prop := {
  tp_res : ∃ r, res o = Ok r;
  tp_fetches : fetches (st o) = fetches s;
  tp_list : http_proxies_requested (cache (st o)) = http_proxies_requested (cache s);
  tp_working :
    working_proxy (cache (st o)) = working_proxy (cache s) ∨
    ∃ q, working_proxy (cache (st o)) = Some (Entry q None) ∧ seen q
}.

(** [proxy_list] of a fresh fetch: the parsed reply without the members of
    the bad set read from the cache. *)
Definition fresh_list (now : Z) (s : State) (parsed : list string) : list string :=
  filter (λ proxy, proxy ∉ default ∅ (slot_get now (bad_proxies (cache s)))) parsed.

(** The state after the fresh list [pl] has been cached. *)
Definition fresh_state (cfg : Config) (now : Z) (s : State) (pl : list string)
    : State :=
  MkState
    (MkCache (working_proxy (cache s))
       (slot_set now pl (Some (cache_expiry cfg)))
       (bad_proxies (cache s)))
    (S (fetches s)) (probes s) (batches s).

(** The events up to that point: the fetch, the deletion when the list is
    empty, the write of the list. *)
Definition fresh_events (cfg : Config) (url : string) (pl : list string)
    : list Event :=
  (EvFetch url ::
   (if bool_decide (length pl = 0%nat)
    then [EvDelete "http_proxies_requested"] else []) ++
   [EvSetList pl (Some (cache_expiry cfg))])%list.

(** What the fetch raises: the error of the request or of the decoding of
    the reply, or the [TypeError] or [KeyError] of the comprehension over a
    reply of another shape. *)
Definition source_error (w : World) (n : nat) : option exn :=
  match source w n with
  | inl e => Some e
  | inr response_json =>
      match parse_proxies w response_json with
      | inl e => Some e
      | inr _ => None
      end
  end.

(** The state after the cached working proxy failed its check and was
    deleted. *)
Definition revalidated (s : State) : State :=
  MkState (MkCache None (http_proxies_requested (cache s)) (bad_proxies (cache s)))
    (fetches s) (S (probes s)) (batches s).

(** The state and the events of [_fetch_proxy] when the fresh list is empty:
    one fetch, the deletion, the write of the empty list, no check. *)
Definition empty_fetch_state (cfg : Config) (now : Z) (s : State) : State :=
  MkState
    (MkCache (working_proxy (cache s))
       (Some (Entry [] (Some (now + cache_expiry cfg))))
       (bad_proxies (cache s)))
    (S (fetches s)) (probes s)
    (if batch_size cfg <=? 0 then S (batches s) else batches s).

Definition empty_fetch_events (cfg : Config) (url : string) : list Event :=
  [EvFetch url; EvDelete "http_proxies_requested";
   EvSetList [] (Some (cache_expiry cfg))] ++
  (if batch_size cfg <=? 0 then [EvBatch []] else []).

(** No healthy cached working proxy: none is readable, or the one that is
    fails its check. *)
Definition no_healthy_cached (w : World) (now : Z) (s : State) : Prop :=
  ∀ p, slot_get now (working_proxy (cache s)) = Some p →
       probe w (probes s) p = false.

(** The hypotheses of a call that fetches the list and finds no candidate
    in it. *)
Record empty_fetch (cfg : Config) (w : World) (now : Z) (s : State)
    (url : string) : Prop := {
  ef_url : proxy_url cfg = Some url;
  ef_no_cached : no_healthy_cached w now s;
  ef_miss : slot_get now (http_proxies_requested (cache s)) = None;
  ef_empty : ∃ response_json parsed,
    source w (fetches s) = inr response_json ∧
    parse_proxies w response_json = inr parsed ∧
    fresh_list now s parsed = []
}.

(** The cache after the empty list was written at [now] with expiry [exp]:
    the empty list is stored, and no working proxy is readable. *)
Definition empty_cached (now exp : Z) (s : State) : Prop :=
  http_proxies_requested (cache s) = Some (Entry [] (Some exp)) ∧
  ∀ t, now ≤ t → slot_get t (working_proxy (cache s)) = None.

(** The expiry each write of the cache is made with. *)
Definition write_expiry (cfg : Config) (e : Event) : Prop :=
  match e with
  | EvSetWorking _ ex | EvSetBad _ ex => ex = None
  | EvSetList _ ex => ex = Some (cache_expiry cfg)
  | EvFetch _ | EvCheck _ _ | EvBatch _ | EvDelete _ => True
  end.

(** An endpoint, in host:port or URL form, whose host lies under one of the
    two prefixes: what stands before the host is the scheme, if any. *)
Definition in_edge_range (proxy : string) : Prop :=
  ∃ scheme rest,
    proxy = scheme +:+ "172.67." +:+ rest ∨ proxy = scheme +:+ "172.64." +:+ rest.

(** The bad set as a call at [now] reads it. *)
Definition bad_of (now : Z) (s : State) : gset string :=
  default ∅ (slot_get now (bad_proxies (cache s))).

(** A cached working proxy is readable and passes its check. *)
Definition healthy_cached (w : World) (now : Z) (s : State) : bool :=
  match slot_get now (working_proxy (cache s)) with
  | Some p => probe w (probes s) p
  | None => false
  end.

(** Every 'proxy' of a record of the reply is a [str]: the endpoints of the
    data model. *)
Definition str_endpoints (reply : json) : Prop :=
  ∀ items fields v,
    reply = JArr items → JObj fields ∈ items →
    field "proxy" fields = Some v → ∃ p, v = JStr p.

(** [needle] occurs in [s]. *)
Definition contains (needle s : string) : Prop :=
  ∃ pre post, s = pre +:+ needle +:+ post.

(** An endpoint in which one of the two prefixes occurs. *)
Definition edge_listed (proxy : string) : Prop :=
  contains "172.67" proxy ∨ contains "172.64" proxy.

(** [kept endpoints l]: [l] is [endpoints] without the edge-listed ones, in
    the same order. *)
Inductive kept : list string → list string → Prop :=
| kept_nil : kept [] []
| kept_skip p endpoints l :
    edge_listed p → kept endpoints l → kept (p :: endpoints) l
| kept_keep p endpoints l :
    ¬ edge_listed p → kept endpoints l → kept (p :: endpoints) (p :: l).

(** [element] is a [dict] whose key 'proxy' holds [v]. *)
Definition proxy_of (element v : json) : Prop :=
  ∃ before after,
    element = JObj (before ++ ("proxy", v) :: after) ∧ "proxy" ∉ before.*1.

(** [None], a [bool] or a number: a value that holds nothing. *)
Definition scalar (v : json) : Prop :=
  v = JNull ∨ (∃ b, v = JBool b) ∨ (∃ literal, v = JNum literal).

(** An element of the reply that the comprehension reads. *)
Definition readable (element : json) : Prop :=
  ∃ v, proxy_of element v ∧ ¬ scalar v.

(** An element of the reply at which the comprehension raises [e]. *)
Inductive unreadable : json → exn → Prop :=
| not_a_dict element :
    (∀ fields, element ≠ JObj fields) → unreadable element TypeError
| no_proxy_key fields :
    "proxy" ∉ fields.*1 → unreadable (JObj fields) (KeyError "proxy")
| proxy_is_scalar element v :
    proxy_of element v → scalar v → unreadable element TypeError.

(** ** Inputs of the examples *)

Definition example_url : string := "https://example.org/proxies/data.json".

(** A world in which every fetch has the outcome [reply] and every check
    the outcome [healthy]; the batch starts and completes its checks in list
    order. *)
Definition plain_world (reply : exn + json) (healthy : bool) : World :=
  MkWorld (λ _, reply) (λ _ _, healthy) (λ _ _, 0%nat) (λ _ _, 0%nat) (λ _, "").


Definition one_proxy_world (healthy : bool) : World :=
  plain_world (inr (JArr [obj "1.2.3.4:8080"])) healthy.

Definition two_proxies : json :=
  JArr [obj "1.2.3.4:8080"; obj "5.6.7.8:3128"].

Definition two_proxies_world : World :=
  plain_world (inr two_proxies) false.

Definition one_bad_cache : Cache :=
  MkCache None None (Some (Entry {["5.6.7.8:3128"]} None)).

Definition scenario_a : json :=
  JArr [obj "1.2.3.4:8080"; obj "172.67.1.1:8080"].

Definition nine_world : World :=
  plain_world (inr (JArr [obj "9.9.9.9:80"])) false.

Definition default_cfg : Config := MkConfig (Some example_url) 1000 86400.

(** A source whose only entry is an excluded one. *)
Definition edge_only_world : World :=
  plain_world (inr (JArr [obj "172.64.0.9:3128"])) true.

(** [k] distinct endpoints, "10.0.0.1:8000", "10.0.0.1:8001", ... *)
Definition numbered_endpoint (n : nat) : string :=
  "10.0.0.1:" +:+ pretty (8000 + Z.of_nat n).

Definition numbered_endpoints (k : nat) : list string :=
  numbered_endpoint <$> seq 0 k.

(** A source that lists [k] distinct endpoints, none of which works. *)
Definition numbered_world (k : nat) : World :=
  plain_world (inr (JArr (obj <$> numbered_endpoints k))) false.

(** Scenario B: "5.6.7.8:3128" is cached as working and fails its check. *)
Definition scenario_b_cache : Cache :=
  MkCache (Some (Entry "5.6.7.8:3128" None)) None None.

(** A configuration with a small batch, and one with a negative batch. *)
Definition small_cfg : Config := MkConfig (Some example_url) 10 86400.

Definition negative_cfg : Config := MkConfig (Some example_url) (-1) 86400.

Definition two_endpoints : list string := ["1.2.3.4:8080"; "5.6.7.8:3128"].

(** A cache that holds the list, written at time 0 for a day. *)
Definition listed_entry : entry (list string) := Entry two_endpoints (Some 86400).

Definition listed_cache : Cache := MkCache None (Some listed_entry) None.

(** ** Basic facts about the monad *)

Lemma bind_ok {A B} (m : M A) (f : A → M B) s a :
  res (m s) = Ok a →
  (m ≫= f) s = MkOutcome (res (f a (st (m s)))) (st (f a (st (m s))))
                 (evs (m s) ++ evs (f a (st (m s)))).
Proof.
  unfold mbind, M_bind. destruct (m s) as [r s' es]; cbn. intros ->.
  by destruct (f a s').
Qed.

Lemma bind_raise {A B} (m : M A) (f : A → M B) s e :
  res (m s) = Raise e →
  (m ≫= f) s = MkOutcome (Raise e) (st (m s)) (evs (m s)).
Proof.
  unfold mbind, M_bind. destruct (m s) as [r s' es]; cbn. by intros ->.
Qed.

(** Reduces the projections of explicit outcomes, states and caches only:
    the sets and the lists stay as they are written. *)
Ltac prog_cbn :=
  cbn [res st evs cache fetches probes batches
       working_proxy http_proxies_requested bad_proxies app fst snd].

Ltac prog_cbn_in H :=
  cbn [res st evs cache fetches probes batches
       working_proxy http_proxies_requested bad_proxies app fst snd] in H.

(** Unfolds the monad and the logged primitives, leaving the loops. *)
Ltac run_goal :=
  unfold _cache_bad_proxy,
    get_working_proxy, get_http_proxies_requested, get_bad_proxies,
    set_working_proxy, set_http_proxies_requested, set_bad_proxies,
    delete_working_proxy, delete_http_proxies_requested,
    get_proxy_not_awaited, _test_single_proxy, session_get_json, completed,
    get_cache, put_cache, emit, raise, mbind, M_bind, mret, M_ret;
  prog_cbn.

Lemma bind_ret_l {A B} (a : A) (f : A → M B) s : (mret a ≫= f) s = f a s.
Proof. run_goal. by destruct (f a s). Qed.

(** ** The completion order is a permutation of the tasks *)

Lemma as_completed_perm {A} (choose : nat → nat) (l : list A) :
  ∀ step, as_completed choose step (length l) l ≡ₚ l.
Proof.
  remember (length l) as n eqn:Hn.
  revert l Hn. induction n as [|n IH]; intros l Hn step; cbn.
  - destruct l; [done | discriminate].
  - assert (Hlt : (choose step `mod` length l < length l)%nat).
    { apply Nat.mod_upper_bound. rewrite <- Hn. lia. }
    destruct (lookup_lt_is_Some_2 _ _ Hlt) as [t Ht]. rewrite Ht.
    etrans; [|symmetry; exact (delete_Permutation l _ t Ht)].
    constructor. apply IH. rewrite length_delete; [lia | by eexists].
Qed.

Lemma set_order_perm {A} (choose : nat → nat) (l : list A) :
  set_order choose l ≡ₚ l.
Proof. apply as_completed_perm. Qed.

(** ** What a test of the candidates does *)

Lemma check_event_mono l l' e : l ⊆ l' → check_event l e → check_event l' e.
Proof. intros Hl. destruct e; cbn; auto. Qed.

Lemma sequential_loop_events w now l : ∀ a m s,
  Forall (check_event l) (evs (sequential_loop w now l a m s)).
Proof.
  induction l as [|p l IH]; intros a m s; cbn [sequential_loop].
  - constructor.
  - destruct (a <? m); [|constructor].
    run_goal. destruct (probe w (probes s) p); cbn.
    + repeat constructor.
    + match goal with |- context [sequential_loop w now l ?a' m ?s'] =>
        specialize (IH a' m s'); destruct (sequential_loop w now l a' m s') as [[r|e] s2 es]
      end; cbn in *.
      all: constructor; [cbn; set_solver|].
      all: constructor; [done|].
      all: eapply Forall_impl; [exact IH|]; intros e'; apply check_event_mono; set_solver.
Qed.

Lemma sequential_loop_post w now l : ∀ a m s,
  test_post (λ q, EvCheck q true ∈ evs (sequential_loop w now l a m s)) s
    (sequential_loop w now l a m s).
Proof.
  induction l as [|p l IH]; intros a m s; cbn [sequential_loop].
  - split; cbn; eauto.
  - destruct (a <? m); [|split; cbn; eauto].
    run_goal. destruct (probe w (probes s) p); cbn.
    + split; cbn; eauto. right. exists p. split; [done|]. set_solver.
    + match goal with |- context [sequential_loop w now l ?a' m ?s'] =>
        specialize (IH a' m s'); destruct (sequential_loop w now l a' m s') as [[r|e] s2 es]
      end; destruct IH as [[r' Hr] Hf Hl Hw]; cbn in *; [|done].
      split; cbn; eauto.
      destruct Hw as [Hw|(q & Hq & Hs)]; [by left|].
      right. exists q. split; [done|]. set_solver.
Qed.

(** [mapM _test_single_proxy]: the tasks of a batch, one check each. *)
Lemma launch_tasks w l : ∀ s,
  ∃ tasks,
    mapM (_test_single_proxy w) l s =
      MkOutcome (Ok tasks)
        (MkState (cache s) (fetches s) (probes s + length l) (batches s))
        (map (λ t, EvCheck t.1 t.2) tasks) ∧
    map fst tasks = l.
Proof.
  induction l as [|p l IH]; intros s; cbn [mapM].
  - exists []. run_goal. destruct s; cbn. by rewrite Nat.add_0_r.
  - unfold mbind, M_bind, mret, M_ret in *. cbn.
    match goal with |- context [mapM _ l ?s'] =>
      destruct (IH s') as (tasks & -> & Hfst)
    end; cbn.
    exists ((p, probe w (probes s) p) :: tasks). cbn. split; [|by f_equal].
    rewrite app_nil_r. do 2 f_equal. lia.
Qed.

Lemma batch_loop_events now results l : ∀ s,
  Forall (check_event l) (evs (batch_loop now results s)).
Proof.
  induction results as [|[p b] results IH]; intros s; cbn [batch_loop].
  - constructor.
  - destruct b; run_goal; [repeat constructor|].
    match goal with |- context [batch_loop now results ?s'] =>
      specialize (IH s'); destruct (batch_loop now results s') as [[r|e] s2 es]
    end; cbn in *; by constructor.
Qed.

Lemma batch_loop_post now results : ∀ s,
  test_post (λ q, (q, true) ∈ results) s (batch_loop now results s).
Proof.
  induction results as [|[p b] results IH]; intros s; cbn [batch_loop].
  - split; cbn; eauto.
  - destruct b; run_goal.
    + split; cbn; eauto. right. exists p. split; [done|]. set_solver.
    + match goal with |- context [batch_loop now results ?s'] =>
        specialize (IH s'); destruct (batch_loop now results s') as [[r|e] s2 es]
      end; destruct IH as [[r' Hr] Hf Hl Hw]; cbn in *; [|done].
      split; cbn; eauto.
      destruct Hw as [Hw|(q & Hq & Hs)]; [by left|].
      right. exists q. split; [done|]. set_solver.
Qed.

Lemma _test_proxy_batch_post w now l s :
  ∃ es,
    evs (_test_proxy_batch w now l s) = EvBatch l :: es ∧
    Forall (check_event l) es ∧
    test_post (λ q, EvCheck q true ∈ es) s (_test_proxy_batch w now l s).
Proof.
  unfold _test_proxy_batch.
  pose proof (set_order_perm (scheduling w (batches s)) l) as Hstart.
  destruct (launch_tasks w (set_order (scheduling w (batches s)) l) s)
    as (tasks & Hrun & Hfst).
  rewrite (bind_ok _ _ s tt) by reflexivity. cbn [emit st evs res].
  rewrite (bind_ok _ _ s (set_order (scheduling w (batches s)) l)) by reflexivity.
  cbn [scheduled st evs res app].
  rewrite (bind_ok _ _ s tasks) by (by rewrite Hrun).
  rewrite Hrun. cbn [st evs res].
  match goal with |- context [(completed w tasks ≫= ?f) ?s'] =>
    rewrite (bind_ok (completed w tasks) f s'
               (as_completed (completion w (batches s')) 0 (length tasks) tasks))
      by reflexivity
  end.
  cbn [completed st evs res batches]. 
  set (results := as_completed _ _ _ tasks).
  assert (Hsub : ∀ t, t ∈ results → t ∈ tasks).
  { intros t. unfold results. by rewrite as_completed_perm. }
  match goal with |- context [batch_loop now results ?s'] =>
    pose proof (batch_loop_events now results l s') as Hev;
    pose proof (batch_loop_post now results s') as [Hr Hf Hl Hw];
    destruct (batch_loop now results s') as [r s2 es]
  end; cbn in *.
  eexists. split; [reflexivity|]. split.
  - apply Forall_app. split; [|done].
    apply Forall_forall. intros e [t [-> Ht]]%list_elem_of_fmap. cbn.
    rewrite <- Hstart, <- Hfst. apply list_elem_of_fmap. by exists t.
  - split; cbn; try done.
    destruct Hw as [Hw|(q & Hq & Hs)]; [by left|].
    right. exists q. split; [done|].
    apply elem_of_app. left. apply list_elem_of_fmap.
    exists (q, true). split; [done|]. by apply Hsub.
Qed.

Lemma test_post_weaken (seen seen' : string → Prop) s o :
  (∀ q, seen q → seen' q) → test_post seen s o → test_post seen' s o.
Proof.
  intros Hs [Hr Hf Hl Hw]. split; try done.
  destruct Hw as [Hw|(q & Hq & Hq')]; [by left|]. right. exists q. auto.
Qed.

Lemma test_post_trans (seen : string → Prop) s o1 o2 :
  test_post seen s o1 → test_post seen (st o1) o2 → test_post seen s o2.
Proof.
  intros [Hr1 Hf1 Hl1 Hw1] [Hr2 Hf2 Hl2 Hw2]. split; try congruence.
  destruct Hw2 as [Hw2|?]; [|by right].
  rewrite Hw2. done.
Qed.

(** The events of [test_candidates]: the call of the batch exactly when
    there are at least [batch_size] candidates, then only checks of
    candidates and writes of 'working_proxy' and 'bad_proxies'. *)
Lemma test_candidates_post cfg w now l s :
  ∃ es,
    evs (test_candidates cfg w now l s) =
      ((if batch_size cfg <=? Z.of_nat (length l) then [EvBatch l] else []) ++ es)%list ∧
    Forall (check_event l) es ∧
    test_post (λ q, EvCheck q true ∈ es) s (test_candidates cfg w now l s).
Proof.
  unfold test_candidates.
  destruct (batch_size cfg <=? Z.of_nat (length l)).
  - destruct (_test_proxy_batch_post w now l s) as (es1 & Hev & Hfa & Hpost).
    destruct (tp_res _ _ _ Hpost) as [r Hr].
    rewrite (bind_ok _ _ s r Hr), Hev.
    destruct (truthy r).
    + exists es1. cbn. rewrite app_nil_r. split; [done|]. split; [done|].
      destruct Hpost; split; cbn; eauto.
    + set (o2 := sequential_loop w now l 0 _ _).
      exists (es1 ++ evs o2)%list. cbn. split; [done|]. split.
      * apply Forall_app. split; [done|]. apply sequential_loop_events.
      * apply (test_post_trans _ s (_test_proxy_batch w now l s)).
        -- eapply test_post_weaken; [|exact Hpost]. set_solver.
        -- pose proof (sequential_loop_post w now l 0
                         (Z.min (batch_size cfg) (Z.of_nat (length l)))
                         (st (_test_proxy_batch w now l s))) as Hseq.
           fold o2 in Hseq. destruct Hseq as [Hr2 Hf2 Hl2 Hw2].
           split; cbn; [exact Hr2|exact Hf2|exact Hl2|].
           destruct Hw2 as [Hw2|(q & Hq & Hq')]; [by left|].
           right. exists q. split; [done|]. apply elem_of_app. by right.
  - rewrite bind_ret_l. cbn [truthy].
    set (o2 := sequential_loop w now l 0 _ _).
    exists (evs o2). split; [done|]. split; [apply sequential_loop_events|].
    apply sequential_loop_post.
Qed.

(** ** The choice of the candidates *)

Lemma fetch_fresh_ok cfg w now url s response_json parsed :
  source w (fetches s) = inr response_json →
  parse_proxies w response_json = inr parsed →
  fetch_fresh cfg w now url s =
    MkOutcome
      (Ok (slice_to (fresh_list now s parsed) (batch_size cfg),
           fresh_list now s parsed))
      (fresh_state cfg now s (fresh_list now s parsed))
      (fresh_events cfg url (fresh_list now s parsed)).
Proof.
  intros Hsrc Hparse. unfold fetch_fresh, fresh_events, fresh_state, fresh_list.
  run_goal. rewrite Hsrc. prog_cbn. rewrite Hparse. prog_cbn.
  by case_bool_decide; prog_cbn.
Qed.

Lemma fetch_fresh_raise cfg w now url s e :
  source_error w (fetches s) = Some e →
  fetch_fresh cfg w now url s =
    MkOutcome (Raise e)
      (MkState (cache s) (S (fetches s)) (probes s) (batches s)) [EvFetch url].
Proof.
  unfold source_error, fetch_fresh. intros He. run_goal.
  destruct (source w (fetches s)) as [e'|response_json]; cbn; [congruence|].
  destruct (parse_proxies w response_json); cbn; congruence.
Qed.

Lemma fetch_cached_run cfg now cached_proxies s :
  fetch_cached cfg now cached_proxies s =
    MkOutcome
      (Ok (slice_to (fresh_list now s cached_proxies) (batch_size cfg),
           fresh_list now s cached_proxies))
      s [].
Proof. reflexivity. Qed.

(** [_fetch_proxy], case by case. *)
Lemma _fetch_proxy_fresh cfg w now s url response_json parsed :
  proxy_url cfg = Some url →
  slot_get now (http_proxies_requested (cache s)) = None →
  source w (fetches s) = inr response_json →
  parse_proxies w response_json = inr parsed →
  let pl := fresh_list now s parsed in
  let o := test_candidates cfg w now (slice_to pl (batch_size cfg))
             (fresh_state cfg now s pl) in
  _fetch_proxy cfg w now s =
    MkOutcome (res o) (st o) (fresh_events cfg url pl ++ evs o).
Proof.
  intros Hurl Hmiss Hsrc Hparse pl o. unfold _fetch_proxy. rewrite Hurl.
  rewrite (bind_ok _ _ s None) by (by unfold get_http_proxies_requested; run_goal; rewrite Hmiss).
  cbn [get_http_proxies_requested]. 
  assert (Hst : st (get_http_proxies_requested now s) = s) by reflexivity.
  assert (Hev : evs (get_http_proxies_requested now s) = []) by reflexivity.
  rewrite Hst, Hev.
  rewrite (bind_ok _ _ s _ (f_equal res (fetch_fresh_ok cfg w now url s _ _ Hsrc Hparse))).
  rewrite (fetch_fresh_ok cfg w now url s _ _ Hsrc Hparse). reflexivity.
Qed.

Lemma _fetch_proxy_raise cfg w now s url e :
  proxy_url cfg = Some url →
  slot_get now (http_proxies_requested (cache s)) = None →
  source_error w (fetches s) = Some e →
  _fetch_proxy cfg w now s =
    MkOutcome (Raise e)
      (MkState (cache s) (S (fetches s)) (probes s) (batches s)) [EvFetch url].
Proof.
  intros Hurl Hmiss He. unfold _fetch_proxy. rewrite Hurl.
  rewrite (bind_ok _ _ s None) by (by unfold get_http_proxies_requested; run_goal; rewrite Hmiss).
  assert (Hst : st (get_http_proxies_requested now s) = s) by reflexivity.
  assert (Hev : evs (get_http_proxies_requested now s) = []) by reflexivity.
  rewrite Hst, Hev.
  rewrite (bind_raise _ _ s e) by (by rewrite (fetch_fresh_raise cfg w now url s e He)).
  by rewrite (fetch_fresh_raise cfg w now url s e He).
Qed.

Lemma _fetch_proxy_cached cfg w now s url cached_proxies :
  proxy_url cfg = Some url →
  slot_get now (http_proxies_requested (cache s)) = Some cached_proxies →
  _fetch_proxy cfg w now s =
    test_candidates cfg w now
      (slice_to (fresh_list now s cached_proxies) (batch_size cfg)) s.
Proof.
  intros Hurl Hhit. unfold _fetch_proxy. rewrite Hurl.
  rewrite (bind_ok _ _ s (Some cached_proxies))
    by (by unfold get_http_proxies_requested; run_goal; rewrite Hhit).
  assert (Hst : st (get_http_proxies_requested now s) = s) by reflexivity.
  assert (Hev : evs (get_http_proxies_requested now s) = []) by reflexivity.
  rewrite Hst, Hev.
  rewrite (bind_ok _ _ s _ (f_equal res (fetch_cached_run cfg now cached_proxies s))).
  rewrite fetch_cached_run. cbn [st evs res app].
  by destruct (test_candidates _ _ _ _ _).
Qed.

Lemma _fetch_proxy_no_url cfg w now s :
  proxy_url cfg = None → _fetch_proxy cfg w now s = MkOutcome (Ok None) s [].
Proof. intros Hurl. unfold _fetch_proxy. by rewrite Hurl. Qed.

(** [get_proxy], case by case. *)
Lemma get_proxy_none cfg w now s :
  slot_get now (working_proxy (cache s)) = None →
  get_proxy cfg w now s = _fetch_proxy cfg w now s.
Proof.
  intros Hwp. unfold get_proxy.
  rewrite (bind_ok _ _ s None) by (by unfold get_working_proxy; run_goal; rewrite Hwp).
  assert (Hst : st (get_working_proxy now s) = s) by reflexivity.
  assert (Hev : evs (get_working_proxy now s) = []) by reflexivity.
  rewrite Hst, Hev. cbn [app]. by destruct (_fetch_proxy _ _ _ _).
Qed.

Lemma get_proxy_healthy cfg w now s p :
  slot_get now (working_proxy (cache s)) = Some p →
  probe w (probes s) p = true →
  get_proxy cfg w now s =
    MkOutcome (Ok (Some p))
      (MkState (cache s) (fetches s) (S (probes s)) (batches s))
      [EvCheck p true].
Proof.
  intros Hwp Hp. unfold get_proxy. run_goal. rewrite Hwp. prog_cbn. by rewrite Hp.
Qed.

Lemma get_proxy_unhealthy cfg w now s p :
  slot_get now (working_proxy (cache s)) = Some p →
  probe w (probes s) p = false →
  let o := _fetch_proxy cfg w now (revalidated s) in
  get_proxy cfg w now s =
    MkOutcome (res o) (st o)
      (EvCheck p false :: EvDelete "working_proxy" :: evs o).
Proof.
  intros Hwp Hp o. subst o. unfold get_proxy, revalidated.
  run_goal. rewrite Hwp. prog_cbn. rewrite Hp. prog_cbn.
  by destruct (_fetch_proxy _ _ _ _).
Qed.

(** The four ways through [_fetch_proxy]: no URL; the fetch raises; the
    candidates come from a fresh fetch; they come from the cached list. *)
Lemma _fetch_proxy_cases cfg w now s :
  (proxy_url cfg = None ∧ _fetch_proxy cfg w now s = MkOutcome (Ok None) s []) ∨
  (∃ url e,
     proxy_url cfg = Some url ∧
     slot_get now (http_proxies_requested (cache s)) = None ∧
     source_error w (fetches s) = Some e ∧
     _fetch_proxy cfg w now s =
       MkOutcome (Raise e)
         (MkState (cache s) (S (fetches s)) (probes s) (batches s)) [EvFetch url]) ∨
  (∃ url response_json parsed,
     proxy_url cfg = Some url ∧
     slot_get now (http_proxies_requested (cache s)) = None ∧
     source w (fetches s) = inr response_json ∧
     parse_proxies w response_json = inr parsed ∧
     let pl := fresh_list now s parsed in
     let o := test_candidates cfg w now (slice_to pl (batch_size cfg))
                (fresh_state cfg now s pl) in
     _fetch_proxy cfg w now s =
       MkOutcome (res o) (st o) (fresh_events cfg url pl ++ evs o)) ∨
  (∃ url cached_proxies,
     proxy_url cfg = Some url ∧
     slot_get now (http_proxies_requested (cache s)) = Some cached_proxies ∧
     _fetch_proxy cfg w now s =
       test_candidates cfg w now
         (slice_to (fresh_list now s cached_proxies) (batch_size cfg)) s).
Proof.
  destruct (proxy_url cfg) as [url|] eqn:Hurl.
  2: { left. split; [done|]. by apply _fetch_proxy_no_url. }
  right.
  destruct (slot_get now (http_proxies_requested (cache s))) as [l|] eqn:Hlist.
  { right. right. exists url, l. split; [done|]. split; [done|].
    by apply (_fetch_proxy_cached cfg w now s url). }
  destruct (source_error w (fetches s)) as [e|] eqn:Herr.
  { left. exists url, e. repeat (split; [done|]).
    by apply (_fetch_proxy_raise cfg w now s url). }
  right. left. unfold source_error in Herr.
  destruct (source w (fetches s)) as [e|response_json] eqn:Hsrc; [done|].
  destruct (parse_proxies w response_json) as [e|parsed] eqn:Hparse; [done|].
  exists url, response_json, parsed. repeat (split; [done|]).
  by apply (_fetch_proxy_fresh cfg w now s url response_json).
Qed.

(** The three ways through [get_proxy]. *)
Lemma get_proxy_cases cfg w now s :
  (slot_get now (working_proxy (cache s)) = None ∧
   get_proxy cfg w now s = _fetch_proxy cfg w now s) ∨
  (∃ p, slot_get now (working_proxy (cache s)) = Some p ∧
        probe w (probes s) p = true ∧
        get_proxy cfg w now s =
          MkOutcome (Ok (Some p))
            (MkState (cache s) (fetches s) (S (probes s)) (batches s))
            [EvCheck p true]) ∨
  (∃ p, slot_get now (working_proxy (cache s)) = Some p ∧
        probe w (probes s) p = false ∧
        let o := _fetch_proxy cfg w now (revalidated s) in
        get_proxy cfg w now s =
          MkOutcome (res o) (st o)
            (EvCheck p false :: EvDelete "working_proxy" :: evs o)).
Proof.
  destruct (slot_get now (working_proxy (cache s))) as [p|] eqn:Hwp.
  2: { left. split; [done|]. by apply get_proxy_none. }
  right. destruct (probe w (probes s) p) eqn:Hp.
  - left. exists p. repeat (split; [done|]). by apply get_proxy_healthy.
  - right. exists p. repeat (split; [done|]). by apply get_proxy_unhealthy.
Qed.

(** *** An empty list of candidates *)

Lemma slice_to_nil {A} (n : Z) : slice_to (@nil A) n = [].
Proof. unfold slice_to. destruct (0 <=? n); apply take_nil. Qed.

Lemma test_candidates_nil cfg w now s :
  test_candidates cfg w now [] s =
    MkOutcome (Ok None)
      (MkState (cache s) (fetches s) (probes s)
         (if batch_size cfg <=? 0 then S (batches s) else batches s))
      (if batch_size cfg <=? 0 then [EvBatch []] else []).
Proof.
  unfold test_candidates. change (Z.of_nat (@length string [])) with 0.
  destruct (batch_size cfg <=? 0); [reflexivity|].
  by destruct s.
Qed.

Lemma _fetch_proxy_empty cfg w now s url response_json parsed :
  proxy_url cfg = Some url →
  slot_get now (http_proxies_requested (cache s)) = None →
  source w (fetches s) = inr response_json →
  parse_proxies w response_json = inr parsed →
  fresh_list now s parsed = [] →
  _fetch_proxy cfg w now s =
    MkOutcome (Ok None) (empty_fetch_state cfg now s) (empty_fetch_events cfg url).
Proof.
  intros Hurl Hmiss Hsrc Hparse Hempty.
  rewrite (_fetch_proxy_fresh cfg w now s url _ _ Hurl Hmiss Hsrc Hparse).
  rewrite Hempty, slice_to_nil, test_candidates_nil. reflexivity.
Qed.

(** C8: without a source URL and without a healthy cached working proxy,
    [get_proxy] returns [None] and performs no outbound fetch of the list. *)
Theorem get_proxy_no_url_no_fetch cfg w now s :
  proxy_url cfg = None →
  no_healthy_cached w now s →
  res (get_proxy cfg w now s) = Ok None ∧
  fetched (evs (get_proxy cfg w now s)) = [] ∧
  fetches (st (get_proxy cfg w now s)) = fetches s.
Proof.
  intros Hurl Hno. unfold get_proxy, _fetch_proxy. rewrite Hurl.
  unfold no_healthy_cached in Hno. run_goal.
  destruct (slot_get now (working_proxy (cache s))) as [p|] eqn:Hp; cbn.
  - rewrite (Hno p eq_refl). cbn. done.
  - done.
Qed.

(** ** Exceptions *)






(** ** The empty filtered list *)

Lemma get_proxy_empty_fetch cfg w now s url :
  empty_fetch cfg w now s url →
  ∃ pre s0,
    get_proxy cfg w now s =
      MkOutcome (Ok None) (empty_fetch_state cfg now s0)
        (pre ++ empty_fetch_events cfg url) ∧
    fetched pre = [] ∧
    fetches s0 = fetches s ∧
    (∀ t, now ≤ t → slot_get t (working_proxy (cache s0)) = None).
Proof.
  intros [Hurl Hno Hmiss (rj & parsed & Hsrc & Hparse & Hempty)].
  destruct (get_proxy_cases cfg w now s)
    as [[Hwp ->]|[(p & Hwp & Hp & _)|(p & Hwp & Hp & ->)]].
  - exists [], s. split; [by eapply _fetch_proxy_empty|]. do 2 (split; [done|]).
    intros t Ht. unfold slot_get, live in *.
    destruct (working_proxy (cache s)) as [[v [e|]]|]; cbn in *; try done.
    destruct (now <? e) eqn:Hlt; [done|].
    assert ((t <? e) = false) as -> by lia. done.
  - rewrite (Hno p Hwp) in Hp. done.
  - exists [EvCheck p false; EvDelete "working_proxy"], (revalidated s).
    rewrite (_fetch_proxy_empty cfg w now (revalidated s) url rj parsed); done.
Qed.

(** C1, on the code: when the fresh list is empty, [get_proxy] returns
    [None] after exactly one fetch of the list.  The cache entry is deleted,
    but the retry written at that place, [self.get_proxy()] without [await],
    does not run: there is no second fetch. *)
Theorem empty_list_fetched_once_no_retry cfg w now s url :
  empty_fetch cfg w now s url →
  res (get_proxy cfg w now s) = Ok None ∧
  fetched (evs (get_proxy cfg w now s)) = [url] ∧
  fetches (st (get_proxy cfg w now s)) = S (fetches s) ∧
  EvDelete "http_proxies_requested" ∈ evs (get_proxy cfg w now s).
Proof.
  intros H. destruct (get_proxy_empty_fetch cfg w now s url H)
    as (pre & s0 & -> & Hpre & Hf & _). cbn.
  split; [done|]. split; [|split].
  - unfold fetched in *. rewrite omap_app, Hpre. unfold empty_fetch_events.
    by destruct (batch_size cfg <=? 0).
  - by rewrite Hf.
  - apply elem_of_app. right. unfold empty_fetch_events. set_solver.
Qed.

Lemma get_proxy_empty_cached cfg w now exp t s :
  empty_cached now exp s → now ≤ t < exp →
  slot_get t (http_proxies_requested (cache s)) = Some [] ∧
  res (get_proxy cfg w t s) = Ok None ∧
  fetched (evs (get_proxy cfg w t s)) = [] ∧
  checked (evs (get_proxy cfg w t s)) = [] ∧
  fetches (st (get_proxy cfg w t s)) = fetches s ∧
  empty_cached now exp (st (get_proxy cfg w t s)).
Proof.
  intros [Hlist Hwp] Ht.
  assert (Hread : slot_get t (http_proxies_requested (cache s)) = Some []).
  { rewrite Hlist. unfold slot_get, live. cbn.
    assert ((t <? exp) = true) as -> by lia. done. }
  split; [done|].
  rewrite (get_proxy_none cfg w t s) by (apply Hwp; lia).
  destruct (proxy_url cfg) as [url|] eqn:Hurl.
  - rewrite (_fetch_proxy_cached cfg w t s url [] Hurl Hread).
    unfold fresh_list. rewrite filter_nil, slice_to_nil, test_candidates_nil. cbn.
    by destruct (batch_size cfg <=? 0).
  - by rewrite (_fetch_proxy_no_url cfg w t s Hurl).
Qed.

Lemma run_calls_empty_cached cfg w now exp times : ∀ s,
  empty_cached now exp s →
  Forall (λ t, now ≤ t < exp) times →
  empty_cached now exp (run_calls cfg w times s).1 ∧
  fetches (run_calls cfg w times s).1 = fetches s.
Proof.
  induction times as [|t times IH]; intros s Hs Hts; cbn; [done|].
  apply Forall_cons in Hts as [Ht Hts].
  destruct (get_proxy_empty_cached cfg w now exp t s Hs Ht)
    as (_ & _ & _ & _ & Hf & Hs').
  destruct (IH _ Hs' Hts) as [Hinv Hf']. split; [done|]. congruence.
Qed.

(** C10: a fresh fetch with an empty filtered list writes the empty list
    under 'http_proxies_requested' with the expiry [cache_expiry], right
    after deleting the key; every later call before the expiry reads the
    empty list and returns [None] without a fetch. *)
Theorem empty_list_cached_until_expiry cfg w now s url times t :
  empty_fetch cfg w now s url →
  Forall (λ t', now ≤ t' < now + cache_expiry cfg) (t :: times) →
  (∃ pre post,
     evs (get_proxy cfg w now s) =
       (pre ++ [EvDelete "http_proxies_requested";
                EvSetList [] (Some (cache_expiry cfg))] ++ post)%list) ∧
  http_proxies_requested (cache (st (get_proxy cfg w now s))) =
    Some (Entry [] (Some (now + cache_expiry cfg))) ∧
  let s' := (run_calls cfg w times (st (get_proxy cfg w now s))).1 in
  slot_get t (http_proxies_requested (cache s')) = Some [] ∧
  res (get_proxy cfg w t s') = Ok None ∧
  fetched (evs (get_proxy cfg w t s')) = [] ∧
  fetches (st (get_proxy cfg w t s')) = S (fetches s).
Proof.
  intros H Hts. apply Forall_cons in Hts as [Ht Hts].
  destruct (get_proxy_empty_fetch cfg w now s url H)
    as (pre & s0 & -> & Hpre & Hf & Hwp). cbn [st evs res].
  split.
  { exists (pre ++ [EvFetch url])%list,
      (if batch_size cfg <=? 0 then [EvBatch []] else []).
    unfold empty_fetch_events. by rewrite <- !app_assoc. }
  split; [done|].
  assert (Hinv : empty_cached now (now + cache_expiry cfg)
                   (empty_fetch_state cfg now s0)) by (split; done).
  destruct (run_calls_empty_cached cfg w now _ times _ Hinv Hts) as [Hinv' Hf'].
  cbv zeta.
  destruct (get_proxy_empty_cached cfg w now _ t _ Hinv' Ht)
    as (Hread & Hres & Hfetched & _ & Hf'' & _).
  repeat (split; [done|]).
  rewrite Hf'', Hf'. cbn. by rewrite Hf.
Qed.

(** ** The writes of the cache *)

Lemma check_events_checked l es p :
  Forall (check_event l) es → p ∈ checked es → p ∈ l.
Proof.
  intros Hes (e & He & Hp)%list_elem_of_omap.
  rewrite Forall_forall in Hes. specialize (Hes e He).
  destruct e; cbn in *; congruence.
Qed.

Lemma check_events_batched l es : Forall (check_event l) es → batched es = [].
Proof.
  induction 1 as [|e es He _ IH]; [done|].
  destruct e; cbn in *; done.
Qed.

Lemma check_events_fetched l es : Forall (check_event l) es → fetched es = [].
Proof.
  induction 1 as [|e es He _ IH]; [done|].
  destruct e; cbn in *; done.
Qed.

(** The 'working_proxy' slot after [_fetch_proxy]: as before, or a proxy
    whose check succeeded during the call, stored without expiry. *)
Lemma _fetch_proxy_working cfg w now s :
  working_proxy (cache (st (_fetch_proxy cfg w now s))) = working_proxy (cache s) ∨
  ∃ q, working_proxy (cache (st (_fetch_proxy cfg w now s))) = Some (Entry q None) ∧
       EvCheck q true ∈ evs (_fetch_proxy cfg w now s).
Proof.
  destruct (_fetch_proxy_cases cfg w now s)
    as [[_ ->]|[(url & e & _ & _ & He & ->)|
        [(url & rj & parsed & _ & _ & _ & _ & ->)|(url & l & _ & _ & ->)]]];
    cbn; [by left|by left| |].
  - destruct (test_candidates_post cfg w now
      (slice_to (fresh_list now s parsed) (batch_size cfg))
      (fresh_state cfg now s (fresh_list now s parsed)))
      as (es & Hev & _ & [_ _ _ Hw]).
    destruct Hw as [Hw|(q & Hq & Hin)]; [by left|].
    right. exists q. split; [done|]. rewrite Hev. set_solver.
  - destruct (test_candidates_post cfg w now
      (slice_to (fresh_list now s l) (batch_size cfg)) s)
      as (es & Hev & _ & [_ _ _ Hw]).
    destruct Hw as [Hw|(q & Hq & Hin)]; [by left|].
    right. exists q. split; [done|]. rewrite Hev. set_solver.
Qed.

Lemma get_proxy_working cfg w now s :
  working_proxy (cache (st (get_proxy cfg w now s))) = working_proxy (cache s) ∨
  working_proxy (cache (st (get_proxy cfg w now s))) = None ∨
  ∃ q, working_proxy (cache (st (get_proxy cfg w now s))) = Some (Entry q None) ∧
       EvCheck q true ∈ evs (get_proxy cfg w now s).
Proof.
  destruct (get_proxy_cases cfg w now s)
    as [[_ ->]|[(p & _ & _ & ->)|(p & _ & _ & ->)]]; cbn; [|by left|].
  - destruct (_fetch_proxy_working cfg w now s) as [?|?]; auto.
  - destruct (_fetch_proxy_working cfg w now (revalidated s))
      as [Hw|(q & Hq & Hin)]; [by right; left|].
    right. right. exists q. split; [done|]. set_solver.
Qed.

Lemma check_event_write_expiry cfg l e : check_event l e → write_expiry cfg e.
Proof. by destruct e. Qed.

Lemma test_candidates_write_expiry cfg w now l s :
  Forall (write_expiry cfg) (evs (test_candidates cfg w now l s)).
Proof.
  destruct (test_candidates_post cfg w now l s) as (es & -> & Hes & _).
  apply Forall_app. split.
  - by destruct (batch_size cfg <=? Z.of_nat (length l)); repeat constructor.
  - eapply Forall_impl; [exact Hes|]. apply check_event_write_expiry.
Qed.

Lemma _fetch_proxy_write_expiry cfg w now s :
  Forall (write_expiry cfg) (evs (_fetch_proxy cfg w now s)).
Proof.
  destruct (_fetch_proxy_cases cfg w now s)
    as [[_ ->]|[(url & e & _ & _ & He & ->)|
        [(url & rj & parsed & _ & _ & _ & _ & ->)|(url & l & _ & _ & ->)]]];
    cbn [evs]; [constructor|by repeat constructor| |].
  - apply Forall_app. split; [|apply test_candidates_write_expiry].
    unfold fresh_events. constructor; [done|]. apply Forall_app. split.
    + by case_bool_decide; repeat constructor.
    + by repeat constructor.
  - apply test_candidates_write_expiry.
Qed.

(** C9, as the code has it: every write of 'working_proxy' is made without
    expiry, like the writes of 'bad_proxies'; only the list is written with
    one ([cache_expiry]).  The entry left in the cache is the one found
    there, none, or a proxy just seen working, stored without expiry and
    so readable at every later time. *)
Theorem working_proxy_written_without_expiry cfg w now s :
  Forall (write_expiry cfg) (evs (get_proxy cfg w now s)) ∧
  (working_proxy (cache (st (get_proxy cfg w now s))) = working_proxy (cache s) ∨
   working_proxy (cache (st (get_proxy cfg w now s))) = None ∨
   ∃ q, working_proxy (cache (st (get_proxy cfg w now s))) = Some (Entry q None) ∧
        EvCheck q true ∈ evs (get_proxy cfg w now s) ∧
        ∀ t, slot_get t (working_proxy (cache (st (get_proxy cfg w now s)))) = Some q).
Proof.
  split.
  - destruct (get_proxy_cases cfg w now s)
      as [[_ ->]|[(p & _ & _ & ->)|(p & _ & _ & ->)]]; cbn.
    + apply _fetch_proxy_write_expiry.
    + by repeat constructor.
    + do 2 (constructor; [done|]). apply _fetch_proxy_write_expiry.
  - destruct (get_proxy_working cfg w now s) as [?|[?|(q & Hq & Hin)]]; auto.
    right. right. exists q. repeat (split; [done|]). intros t. by rewrite Hq.
Qed.

(** C9, counterexample: a proxy found working at time 0 is stored without
    expiry time; it is still read from the cache a thousand days later. *)
Lemma working_proxy_entry_never_expires :
  let o := get_proxy (MkConfig (Some example_url) 10 86400)
             (one_proxy_world true) 0 (init_state empty_cache) in
  res o = Ok (Some "1.2.3.4:8080") ∧
  working_proxy (cache (st o)) = Some (Entry "1.2.3.4:8080" None) ∧
  slot_get 86400000 (working_proxy (cache (st o))) = Some "1.2.3.4:8080" ∧
  slot_get 86400000 (http_proxies_requested (cache (st o))) = None.
Proof. vm_compute. done. Qed.

(** ** The list written back to the cache *)

(** C6, as the code has it: on a miss of 'http_proxies_requested' and a
    successful fetch, the list written back, with the expiry [cache_expiry],
    is the list after both filters: the prefix exclusion of the parsing and
    the removal of the members of the bad set read at that time. *)
Theorem fresh_list_cached_after_bad_filter cfg w now s url response_json parsed :
  proxy_url cfg = Some url →
  slot_get now (http_proxies_requested (cache s)) = None →
  source w (fetches s) = inr response_json →
  parse_proxies w response_json = inr parsed →
  let bad := default ∅ (slot_get now (bad_proxies (cache s))) in
  let written := filter (λ proxy, proxy ∉ bad) parsed in
  EvSetList written (Some (cache_expiry cfg)) ∈ evs (_fetch_proxy cfg w now s) ∧
  http_proxies_requested (cache (st (_fetch_proxy cfg w now s))) =
    Some (Entry written (Some (now + cache_expiry cfg))).
Proof.
  intros Hurl Hmiss Hsrc Hparse bad written.
  rewrite (_fetch_proxy_fresh cfg w now s url _ _ Hurl Hmiss Hsrc Hparse).
  fold (fresh_list now s parsed) in written. cbn [st evs]. split.
  - apply elem_of_app. left. unfold fresh_events. set_solver.
  - destruct (test_candidates_post cfg w now
      (slice_to (fresh_list now s parsed) (batch_size cfg))
      (fresh_state cfg now s (fresh_list now s parsed)))
      as (es & _ & _ & [_ _ Hl _]).
    by rewrite Hl.
Qed.

(** C6, counterexample: with "5.6.7.8:3128" in the bad set, the reply
    parses to two proxies but the list written to the cache holds one. *)
Lemma cached_list_lacks_bad_proxies :
  let o := _fetch_proxy (MkConfig (Some example_url) 10 86400)
             two_proxies_world 0 (init_state one_bad_cache) in
  parse_proxies two_proxies_world two_proxies =
    inr ["1.2.3.4:8080"; "5.6.7.8:3128"] ∧
  http_proxies_requested (cache (st o)) =
    Some (Entry ["1.2.3.4:8080"] (Some 86400)) ∧
  value <$> http_proxies_requested (cache (st o)) ≠
    Some ["1.2.3.4:8080"; "5.6.7.8:3128"].
Proof. vm_compute. done. Qed.

(** ** The cached working proxy *)

Lemma run_calls_working cfg w times : ∀ s es,
  (working_proxy (cache s) = None ∨
   ∃ q, working_proxy (cache s) = Some (Entry q None) ∧ EvCheck q true ∈ es) →
  working_proxy (cache (run_calls cfg w times s).1) = None ∨
  ∃ q, working_proxy (cache (run_calls cfg w times s).1) = Some (Entry q None) ∧
       EvCheck q true ∈ es ++ (run_calls cfg w times s).2.
Proof.
  induction times as [|t times IH]; intros s es Hs; cbn [run_calls fst snd].
  - by rewrite app_nil_r.
  - rewrite app_assoc. apply IH.
    destruct (get_proxy_working cfg w t s) as [Hw|[Hw|(q & Hq & Hin)]].
    + rewrite Hw. destruct Hs as [?|(q & Hq & Hin)]; [by left|].
      right. exists q. split; [done|]. apply elem_of_app. by left.
    + by left.
    + right. exists q. split; [done|]. apply elem_of_app. by right.
Qed.

(** C7: a cached working proxy that fails its check is deleted from the
    cache and [get_proxy] goes on with [_fetch_proxy]; from then on, also
    over later calls, the key is absent unless it holds a proxy whose check
    succeeded after the deletion. *)
Theorem unhealthy_cached_proxy_deleted cfg w now s p times :
  slot_get now (working_proxy (cache s)) = Some p →
  probe w (probes s) p = false →
  let o := get_proxy cfg w now s in
  let o' := _fetch_proxy cfg w now (revalidated s) in
  working_proxy (cache (revalidated s)) = None ∧
  res o = res o' ∧ st o = st o' ∧
  evs o = EvCheck p false :: EvDelete "working_proxy" :: evs o' ∧
  let later := run_calls cfg w times (st o) in
  (working_proxy (cache later.1) = None ∨
   ∃ q, working_proxy (cache later.1) = Some (Entry q None) ∧
        EvCheck q true ∈ evs o' ++ later.2).
Proof.
  intros Hwp Hp o o'. subst o o'.
  rewrite (get_proxy_unhealthy cfg w now s p Hwp Hp). cbv zeta. cbn [res st evs].
  repeat (split; [done|]).
  apply run_calls_working.
  destruct (_fetch_proxy_working cfg w now (revalidated s)) as [Hw|?]; [|by right].
  left. by rewrite Hw.
Qed.

(** ** The excluded prefixes *)

Lemma str_in_unfold needle s :
  str_in needle s =
    String.prefix needle s ||
    match s with
    | EmptyString => false
    | String _ s' => str_in needle s'
    end.
Proof. by destruct s. Qed.

Lemma prefix_append needle s : String.prefix needle (needle +:+ s) = true.
Proof.
  induction needle as [|a needle IH]; [by destruct s|].
  change (String a needle +:+ s) with (String a (needle +:+ s)).
  cbn [String.prefix].
  destruct (Ascii.ascii_dec a a) as [_|Hne]; [exact IH|by destruct Hne].
Qed.

Lemma str_in_append pre needle post :
  str_in needle (pre +:+ needle +:+ post) = true.
Proof.
  induction pre as [|a pre IH].
  - change ("" +:+ needle +:+ post) with (needle +:+ post).
    by rewrite str_in_unfold, prefix_append.
  - change (String a pre +:+ needle +:+ post)
      with (String a (pre +:+ needle +:+ post)).
    rewrite str_in_unfold, IH. apply orb_true_r.
Qed.

Lemma in_edge_range_excluded proxy : in_edge_range proxy → excluded proxy = true.
Proof.
  intros (scheme & rest & [-> | ->]); unfold excluded.
  - change (scheme +:+ "172.67." +:+ rest)
      with (scheme +:+ "172.67" +:+ ("." +:+ rest)).
    by rewrite str_in_append.
  - change (scheme +:+ "172.64." +:+ rest)
      with (scheme +:+ "172.64" +:+ ("." +:+ rest)).
    rewrite (str_in_append scheme "172.64"). apply orb_true_r.
Qed.

Lemma excluded_value_str s : excluded_value (JStr s) = inr (excluded s).
Proof.
  unfold excluded_value, excluded. cbn [py_in].
  by destruct (str_in "172.67" s).
Qed.

Lemma parse_elements_not_excluded w elements :
  (∀ fields v, JObj fields ∈ elements → field "proxy" fields = Some v →
               ∃ p, v = JStr p) →
  ∀ parsed p,
    parse_elements w elements = inr parsed → p ∈ parsed → excluded p = false.
Proof.
  induction elements as [|r rest IH]; intros Hstr parsed p; cbn [parse_elements].
  - intros [= <-]. by intros ?%elem_of_nil.
  - destruct r as [| | | |items|fields]; cbn [subscript]; try done.
    destruct (field "proxy" fields) as [v|] eqn:Hv; [|done].
    destruct (Hstr fields v) as [q ->]; [apply elem_of_cons; by left|done|].
    rewrite excluded_value_str. cbn [format].
    assert (Hrest : ∀ fields' v', JObj fields' ∈ rest →
              field "proxy" fields' = Some v' → ∃ p', v' = JStr p').
    { intros fields' v' Hin. apply Hstr. apply elem_of_cons. by right. }
    destruct (parse_elements w rest) as [e|l]; [done|].
    destruct (excluded q) eqn:Hex; intros [= <-]; [by apply (IH Hrest)|].
    intros [->|Hin]%elem_of_cons; [done|]. by apply (IH Hrest l).
Qed.

(** Iterating a [dict] or a [str] gives strings, which have no 'proxy':
    only the empty one is read without an exception. *)
Lemma parse_elements_strings w (l : list string) parsed :
  parse_elements w (JStr <$> l) = inr parsed → parsed = [].
Proof. destruct l; cbn; [by intros [= <-]|done]. Qed.

Lemma parse_proxies_not_excluded w response_json :
  str_endpoints response_json →
  ∀ parsed p,
    parse_proxies w response_json = inr parsed → p ∈ parsed → excluded p = false.
Proof.
  intros Hstr parsed p. unfold parse_proxies.
  destruct response_json as [| | |t|items|fields]; cbn [py_iter]; try done.
  - intros ->%parse_elements_strings. by intros ?%elem_of_nil.
  - apply parse_elements_not_excluded. intros fields v. by apply Hstr.
  - intros ->%parse_elements_strings. by intros ?%elem_of_nil.
Qed.

Lemma slice_to_subseteq {A} (l : list A) n x : x ∈ slice_to l n → x ∈ l.
Proof.
  unfold slice_to. destruct (0 <=? n); intros Hx; by eapply subseteq_take.
Qed.

Lemma checked_app es1 es2 : checked (es1 ++ es2) = checked es1 ++ checked es2.
Proof. apply omap_app. Qed.

Lemma batched_app es1 es2 : batched (es1 ++ es2) = batched es1 ++ batched es2.
Proof. apply omap_app. Qed.

Lemma checked_fresh_events cfg url pl : checked (fresh_events cfg url pl) = [].
Proof. unfold fresh_events. by case_bool_decide. Qed.

Lemma batched_fresh_events cfg url pl : batched (fresh_events cfg url pl) = [].
Proof. unfold fresh_events. by case_bool_decide. Qed.

(** The proxies checked by [test_candidates] are candidates. *)
Lemma test_candidates_checked cfg w now l s p :
  p ∈ checked (evs (test_candidates cfg w now l s)) → p ∈ l.
Proof.
  destruct (test_candidates_post cfg w now l s) as (es & -> & Hes & _).
  rewrite checked_app.
  assert (checked (if batch_size cfg <=? Z.of_nat (length l)
                   then [EvBatch l] else []) = []) as ->
    by (by destruct (batch_size cfg <=? Z.of_nat (length l))).
  by apply check_events_checked.
Qed.

Lemma test_candidates_batched cfg w now l s :
  batched (evs (test_candidates cfg w now l s)) =
    if batch_size cfg <=? Z.of_nat (length l) then [l] else [].
Proof.
  destruct (test_candidates_post cfg w now l s) as (es & -> & Hes & _).
  rewrite batched_app, (check_events_batched l es Hes), app_nil_r.
  by destruct (batch_size cfg <=? Z.of_nat (length l)).
Qed.

(** C4: with an empty cache, the reply of scenario A and [batch_size] 10,
    whatever the proxies do, the only proxy checked is "1.2.3.4:8080"; and
    in general, of a fetched reply whose 'proxy' values are strings, no
    entry whose host lies under 172.67 or 172.64 reaches the parsed list,
    nor a check of that call. *)
Theorem edge_ranges_excluded_before_testing :
  (∀ prb cmp srt rnd now ttl,
     parse_proxies (MkWorld (λ _, inr scenario_a) prb cmp srt rnd) scenario_a =
       inr ["1.2.3.4:8080"] ∧
     checked (evs (get_proxy (MkConfig (Some example_url) 10 ttl)
                     (MkWorld (λ _, inr scenario_a) prb cmp srt rnd) now
                     (init_state empty_cache))) = ["1.2.3.4:8080"]) ∧
  (∀ w response_json parsed proxy,
     in_edge_range proxy →
     str_endpoints response_json →
     parse_proxies w response_json = inr parsed →
     proxy ∉ parsed) ∧
  (∀ cfg w now s proxy,
     in_edge_range proxy →
     slot_get now (http_proxies_requested (cache s)) = None →
     (∀ response_json, source w (fetches s) = inr response_json →
                       str_endpoints response_json) →
     proxy ∉ checked (evs (_fetch_proxy cfg w now s))).
Proof.
  split; [|split].
  - intros prb cmp srt rnd now ttl. split; [reflexivity|].
    set (w := MkWorld _ prb cmp srt rnd). set (cfg := MkConfig _ 10 ttl).
    rewrite (get_proxy_none cfg w now (init_state empty_cache) eq_refl).
    rewrite (_fetch_proxy_fresh cfg w now (init_state empty_cache) example_url
               scenario_a ["1.2.3.4:8080"] eq_refl eq_refl eq_refl eq_refl).
    cbn [evs]. rewrite checked_app, checked_fresh_events. cbn [app].
    change (fresh_list now (init_state empty_cache) ["1.2.3.4:8080"])
      with ["1.2.3.4:8080"].
    change (slice_to ["1.2.3.4:8080"] (batch_size cfg)) with ["1.2.3.4:8080"].
    unfold test_candidates.
    change (batch_size cfg <=? Z.of_nat (length ["1.2.3.4:8080"])) with false.
    cbv iota. rewrite bind_ret_l. cbn [truthy sequential_loop].
    change (0 <? Z.min (batch_size cfg) (Z.of_nat (length ["1.2.3.4:8080"])))
      with true.
    cbv iota. run_goal.
    match goal with |- context [probe w ?n ?p] => by destruct (probe w n p) end.
  - intros w rj parsed proxy Hrange%in_edge_range_excluded Hstr Hparse Hin.
    by rewrite (parse_proxies_not_excluded w rj Hstr parsed proxy Hparse Hin)
      in Hrange.
  - intros cfg w now s proxy Hrange%in_edge_range_excluded Hmiss Hstr.
    destruct (_fetch_proxy_cases cfg w now s)
      as [[_ ->]|[(url & e & _ & _ & He & ->)|
          [(url & rj & parsed & _ & _ & Hsrc & Hparse & ->)|(url & l & _ & Hhit & _)]]];
      cbn [evs checked omap]; [by intros ?%elem_of_nil|by intros ?%elem_of_nil| |congruence].
    rewrite checked_app, checked_fresh_events. cbn [app].
    intros Hin%test_candidates_checked%slice_to_subseteq.
    unfold fresh_list in Hin. apply list_elem_of_filter in Hin as [_ Hin].
    by rewrite (parse_proxies_not_excluded w rj (Hstr rj Hsrc) parsed proxy Hparse Hin)
      in Hrange.
Qed.

(** ** The cutover between the batch and the sequential loop *)

(** The sequential loop checks the candidates in list order. *)
Lemma sequential_loop_checked w now l : ∀ a m s,
  checked (evs (sequential_loop w now l a m s)) `prefix_of` l.
Proof.
  induction l as [|p l IH]; intros a m s; cbn [sequential_loop].
  - done.
  - destruct (a <? m); [|apply prefix_nil].
    run_goal. destruct (probe w (probes s) p); cbn.
    + apply prefix_cons, prefix_nil.
    + match goal with |- context [sequential_loop w now l ?a' m ?s'] =>
        specialize (IH a' m s'); destruct (sequential_loop w now l a' m s') as [[r|e] s2 es]
      end; cbn in *; by apply prefix_cons.
Qed.

(** The loop returns the first candidate, in list order and within the
    attempts left, whose check succeeds; it checks the candidates up to that
    one and no other. *)
Lemma sequential_loop_first w now l : ∀ a m s,
  match res (sequential_loop w now l a m s) with
  | Ok (Some p) =>
      ∃ i, Z.of_nat i < m - a ∧ l !! i = Some p ∧
           probe w (probes s + i)%nat p = true ∧
           (∀ j q, (j < i)%nat → l !! j = Some q →
                   probe w (probes s + j)%nat q = false) ∧
           checked (evs (sequential_loop w now l a m s)) = take (S i) l
  | Ok None =>
      (∀ j q, Z.of_nat j < m - a → l !! j = Some q →
              probe w (probes s + j)%nat q = false) ∧
      checked (evs (sequential_loop w now l a m s)) = take (Z.to_nat (m - a)) l
  | Raise _ => False
  end.
Proof.
  induction l as [|q l IH]; intros a m s; cbn [sequential_loop].
  - prog_cbn. split; [by intros j p _ ?|]. by rewrite take_nil.
  - destruct (a <? m) eqn:Hlt.
    2: { prog_cbn. split; [intros j p Hj; lia|].
         assert (Z.to_nat (m - a) = 0%nat) as -> by lia. done. }
    run_goal. destruct (probe w (probes s) q) eqn:Hq; prog_cbn.
    + exists 0%nat. split; [lia|]. split; [done|].
      rewrite Nat.add_0_r. split; [done|]. split; [intros j p Hj; lia|done].
    + match goal with |- context [sequential_loop w now l ?a' m ?s'] =>
        specialize (IH a' m s'); destruct (sequential_loop w now l a' m s') as [r s2 es]
      end; prog_cbn_in IH; prog_cbn.
      change (checked (EvCheck q false :: EvSetBad ?b ?x :: es))
        with (q :: checked es).
      destruct r as [[p|]|e]; [| |done].
      * destruct IH as (i & Hi & Hl & Hp & Hbefore & Hchk).
        exists (S i). split; [lia|]. split; [done|].
        rewrite Nat.add_succ_r. split; [done|]. split; [|by rewrite Hchk].
        intros [|j] p' Hj Hl'.
        -- rewrite Nat.add_0_r. by simplify_eq/=.
        -- rewrite Nat.add_succ_r. apply Hbefore; [lia|done].
      * destruct IH as (Hall & Hchk). split.
        -- intros [|j] p' Hj Hl'.
           ++ rewrite Nat.add_0_r. by simplify_eq/=.
           ++ rewrite Nat.add_succ_r. apply Hall; [lia|done].
        -- assert (Z.to_nat (m - a) = S (Z.to_nat (m - (a + 1)))) as -> by lia.
           cbn [take]. by rewrite Hchk.
Qed.

(** C5: on a fresh fetch, for every [batch_size] that is not negative and
    every list [l] of fresh candidates, the cutover is at [batch_size].
    With at least [batch_size] candidates the batch is called once, on the
    first [batch_size] of them in list order, and no check is made outside
    these: when the list has no duplicate, no candidate of the rest is
    checked.  With fewer candidates the batch is not called, [max_attempts]
    is the number of candidates, and the call is the sequential loop over
    all of them: it checks them in list order up to the first whose check
    succeeds and returns that one, or checks every one of them and returns
    [None].  Scenario C is [batch_size] 1000 with 1500 candidates,
    scenario D [batch_size] 1000 with 50. *)
Theorem batch_cutover_at_batch_size cfg w now s url response_json parsed :
  proxy_url cfg = Some url →
  slot_get now (http_proxies_requested (cache s)) = None →
  source w (fetches s) = inr response_json →
  parse_proxies w response_json = inr parsed →
  0 ≤ batch_size cfg →
  let l := fresh_list now s parsed in
  let n := Z.to_nat (batch_size cfg) in
  let o := _fetch_proxy cfg w now s in
  ((n ≤ length l)%nat →
     batched (evs o) = [take n l] ∧
     (∀ p, p ∈ checked (evs o) → p ∈ take n l) ∧
     (NoDup l → ∀ p, p ∈ drop n l → p ∉ checked (evs o))) ∧
  ((length l < n)%nat →
     batched (evs o) = [] ∧
     Z.min (batch_size cfg) (Z.of_nat (length l)) = Z.of_nat (length l) ∧
     (let o' := sequential_loop w now l 0 (Z.of_nat (length l))
                  (fresh_state cfg now s l) in
      res o = res o' ∧ st o = st o' ∧ evs o = fresh_events cfg url l ++ evs o') ∧
     match res o with
     | Ok (Some p) =>
         ∃ i, l !! i = Some p ∧
              probe w (probes s + i)%nat p = true ∧
              (∀ j q, (j < i)%nat → l !! j = Some q →
                      probe w (probes s + j)%nat q = false) ∧
              checked (evs o) = take (S i) l
     | Ok None =>
         (∀ j q, l !! j = Some q → probe w (probes s + j)%nat q = false) ∧
         checked (evs o) = l
     | Raise _ => False
     end).
Proof.
  intros Hurl Hmiss Hsrc Hparse Hbs l n o. subst o.
  rewrite (_fetch_proxy_fresh cfg w now s url _ _ Hurl Hmiss Hsrc Hparse).
  fold l. cbn [res st evs].
  assert (Hn : Z.of_nat n = batch_size cfg) by (unfold n; lia).
  clearbody n l.
  assert (Hslice : slice_to l (batch_size cfg) = take n l).
  { unfold slice_to. assert ((0 <=? batch_size cfg) = true) as -> by lia.
    by rewrite <- Hn, Nat2Z.id. }
  rewrite Hslice. split; intros Hlen.
  - assert (Hchecked : ∀ p,
      p ∈ checked (fresh_events cfg url l ++
                   evs (test_candidates cfg w now (take n l)
                          (fresh_state cfg now s l))) →
      p ∈ take n l).
    { intros p. rewrite checked_app, checked_fresh_events. cbn [app].
      apply test_candidates_checked. }
    split; [|split; [done|]].
    + rewrite batched_app, batched_fresh_events, test_candidates_batched.
      rewrite length_take.
      match goal with |- context [?a <=? ?b] =>
        by assert ((a <=? b) = true) as -> by (apply Z.leb_le; lia) end.
    + intros Hnd p Hdrop Hin%Hchecked.
      rewrite <- (take_drop n l) in Hnd.
      apply NoDup_app in Hnd as (_ & Hdisj & _). by apply (Hdisj p).
  - assert (Hall : take n l = l) by (apply take_ge; lia).
    rewrite Hall.
    assert (Hmin : Z.min (batch_size cfg) (Z.of_nat (length l)) =
                   Z.of_nat (length l)) by lia.
    assert (Hrun : test_candidates cfg w now l (fresh_state cfg now s l) =
                   sequential_loop w now l 0 (Z.of_nat (length l))
                     (fresh_state cfg now s l)).
    { unfold test_candidates. rewrite Hmin.
      assert ((batch_size cfg <=? Z.of_nat (length l)) = false) as -> by lia.
      cbv iota. by rewrite bind_ret_l. }
    rewrite batched_app, batched_fresh_events, test_candidates_batched.
    assert ((batch_size cfg <=? Z.of_nat (length l)) = false) as -> by lia.
    rewrite Hrun. repeat (split; [done|]).
    rewrite checked_app, checked_fresh_events. cbn [app].
    pose proof (sequential_loop_first w now l 0 (Z.of_nat (length l))
                  (fresh_state cfg now s l)) as H.
    change (probes (fresh_state cfg now s l)) with (probes s) in H.
    destruct (res (sequential_loop w now l 0 (Z.of_nat (length l))
                     (fresh_state cfg now s l))) as [[p|]|e]; [| |done].
    + destruct H as (i & _ & Hl & Hp & Hbefore & Hchk). by exists i.
    + destruct H as (Hnone & Hchk). split.
      * intros j q Hl. apply (Hnone j q); [|done].
        apply lookup_lt_Some in Hl. lia.
      * rewrite Hchk. apply take_ge. lia.
Qed.

(** ** Proxies checked again *)

(** C3, on the code: with [batch_size] 1 and the one candidate "9.9.9.9:80"
    that does not work, the batch checks it and records it in the bad set,
    and the sequential loop of the same call checks it again. *)
Theorem bad_proxy_checked_again :
  evs (get_proxy (MkConfig (Some example_url) 1 86400) nine_world 0
         (init_state empty_cache)) =
    [EvFetch example_url;
     EvSetList ["9.9.9.9:80"] (Some 86400);
     EvBatch ["9.9.9.9:80"];
     EvCheck "9.9.9.9:80" false;
     EvSetBad {["9.9.9.9:80"]} None;
     EvCheck "9.9.9.9:80" false;
     EvSetBad {["9.9.9.9:80"]} None].
Proof. by vm_compute. Qed.

(** The candidates of a call leave out the bad set read by that call: no
    member of it is checked by [_fetch_proxy]. *)
Lemma _fetch_proxy_skips_bad_set cfg w now s p :
  p ∈ default ∅ (slot_get now (bad_proxies (cache s))) →
  p ∉ checked (evs (_fetch_proxy cfg w now s)).
Proof.
  intros Hbad.
  destruct (_fetch_proxy_cases cfg w now s)
    as [[_ ->]|[(url & e & _ & _ & He & ->)|
        [(url & rj & parsed & _ & _ & _ & Hparse & ->)|(url & l & _ & Hhit & ->)]]];
    cbn [evs checked omap]; [by intros ?%elem_of_nil|by intros ?%elem_of_nil| |].
  - rewrite checked_app, checked_fresh_events. cbn [app].
    intros Hin%test_candidates_checked%slice_to_subseteq.
    unfold fresh_list in Hin. by apply list_elem_of_filter in Hin as [Hnot _].
  - intros Hin%test_candidates_checked%slice_to_subseteq.
    unfold fresh_list in Hin. by apply list_elem_of_filter in Hin as [Hnot _].
Qed.

(** A reply that lists records of string endpoints is of the data model. *)
Lemma obj_list_str_endpoints (endpoints : list string) :
  str_endpoints (JArr (obj <$> endpoints)).
Proof.
  intros items fields v [= <-] Hin Hfield.
  apply list_elem_of_fmap in Hin as (p & Hobj & _).
  unfold obj in Hobj. injection Hobj as ->.
  cbn in Hfield. injection Hfield as <-. by exists p.
Qed.

(** Without a bad set in the cache the fresh list is the parsed reply. *)
Lemma fresh_list_no_bad_set now s parsed :
  slot_get now (bad_proxies (cache s)) = None → fresh_list now s parsed = parsed.
Proof.
  intros Hnone. unfold fresh_list. rewrite Hnone. cbn [default].
  induction parsed as [|p parsed IH]; [done|].
  rewrite filter_cons_True by set_solver. by rewrite IH.
Qed.

(** The numbered endpoints are pairwise distinct. *)
Lemma numbered_endpoints_NoDup k : NoDup (numbered_endpoints k).
Proof.
  unfold numbered_endpoints. apply NoDup_fmap_2_strong; [|apply NoDup_seq].
  intros m n _ _ Heq. unfold numbered_endpoint in Heq.
  apply (inj (String.app "10.0.0.1:")), (inj pretty) in Heq. lia.
Qed.

Lemma length_numbered_endpoints k : length (numbered_endpoints k) = k.
Proof. unfold numbered_endpoints. by rewrite length_fmap, length_seq. Qed.

(** A reply that lists records of endpoints outside the two prefixes is
    parsed to these endpoints. *)
Lemma parse_proxies_records w (endpoints : list string) :
  forallb (λ p, negb (excluded p)) endpoints = true →
  parse_proxies w (JArr (obj <$> endpoints)) = inr endpoints.
Proof.
  unfold parse_proxies. cbn [py_iter].
  induction endpoints as [|p endpoints IH]; [done|].
  cbn [forallb]. intros [Hp Hrest]%andb_true_iff.
  cbn [fmap list_fmap parse_elements obj subscript field].
  change (String.eqb "proxy" "proxy") with true. cbv iota.
  rewrite excluded_value_str.
  change (list_fmap string json obj endpoints) with (obj <$> endpoints).
  rewrite (IH Hrest). cbn [format].
  by destruct (excluded p).
Qed.

(** ** Instances *)


(** The source lists one excluded entry: the fresh list is empty. *)
Lemma edge_only_empty_fetch :
  empty_fetch default_cfg edge_only_world 0 (init_state empty_cache) example_url.
Proof.
  split; [reflexivity|intros p Hp; discriminate Hp|reflexivity|].
  exists (JArr [obj "172.64.0.9:3128"]), []. repeat split; reflexivity.
Defined.

(** One fetch and no retry, on that source. *)
Lemma empty_list_fetched_once_no_retry_witness :
  res (get_proxy default_cfg edge_only_world 0 (init_state empty_cache)) = Ok None ∧
  fetched (evs (get_proxy default_cfg edge_only_world 0 (init_state empty_cache))) =
    [example_url] ∧
  fetches (st (get_proxy default_cfg edge_only_world 0 (init_state empty_cache))) =
    1%nat ∧
  EvDelete "http_proxies_requested" ∈
    evs (get_proxy default_cfg edge_only_world 0 (init_state empty_cache)).
Proof.
  exact (empty_list_fetched_once_no_retry default_cfg edge_only_world 0
           (init_state empty_cache) example_url edge_only_empty_fetch).
Defined.

(** After calls at 60 s and 3600 s, the call at 86399 s still reads the
    empty list. *)
Lemma empty_list_cached_until_expiry_witness :
  let s' := (run_calls default_cfg edge_only_world [60; 3600]
               (st (get_proxy default_cfg edge_only_world 0
                      (init_state empty_cache)))).1 in
  slot_get 86399 (http_proxies_requested (cache s')) = Some [] ∧
  res (get_proxy default_cfg edge_only_world 86399 s') = Ok None ∧
  fetched (evs (get_proxy default_cfg edge_only_world 86399 s')) = [] ∧
  fetches (st (get_proxy default_cfg edge_only_world 86399 s')) = 1%nat.
Proof.
  assert (Hts : Forall (λ t', 0 ≤ t' < 0 + cache_expiry default_cfg)
                  [86399; 60; 3600]).
  { repeat constructor; cbn; lia. }
  exact (proj2 (proj2 (empty_list_cached_until_expiry default_cfg edge_only_world 0
           (init_state empty_cache) example_url [60; 3600] 86399
           edge_only_empty_fetch Hts))).
Defined.

(** The second entry of scenario A is neither parsed nor checked. *)
Lemma edge_ranges_excluded_before_testing_witness :
  in_edge_range "172.67.1.1:8080" ∧
  ("172.67.1.1:8080" ∉ ["1.2.3.4:8080"]) ∧
  "172.67.1.1:8080" ∉
    checked (evs (_fetch_proxy (MkConfig (Some example_url) 10 86400)
                    (plain_world (inr scenario_a) false)
                    0 (init_state empty_cache))).
Proof.
  assert (Hrange : in_edge_range "172.67.1.1:8080").
  { exists "", "1.1:8080". left. reflexivity. }
  assert (Hstr : str_endpoints scenario_a).
  { exact (obj_list_str_endpoints ["1.2.3.4:8080"; "172.67.1.1:8080"]). }
  destruct edge_ranges_excluded_before_testing as (_ & Hparse & Hcheck).
  split; [exact Hrange|]. split.
  - apply (Hparse (plain_world (inr scenario_a) false) scenario_a _ _ Hrange Hstr).
    reflexivity.
  - apply (Hcheck _ _ _ _ _ Hrange); [reflexivity|].
    intros rj [= <-]. exact Hstr.
Defined.

(** Scenario C: of 1500 distinct candidates the batch takes the first 1000
    and the other 500 are not checked.  Scenario D: the 50 candidates, none
    of which works, are checked in list order without a batch.  At the
    cutover, 10 candidates with [batch_size] 10, the batch takes them all. *)
Lemma batch_cutover_at_batch_size_witness :
  batched (evs (_fetch_proxy default_cfg (numbered_world 1500) 0
                  (init_state empty_cache))) =
    [take 1000 (numbered_endpoints 1500)] ∧
  (∀ p, p ∈ drop 1000 (numbered_endpoints 1500) →
        p ∉ checked (evs (_fetch_proxy default_cfg (numbered_world 1500) 0
                            (init_state empty_cache)))) ∧
  batched (evs (_fetch_proxy default_cfg (numbered_world 50) 0
                  (init_state empty_cache))) = [] ∧
  res (_fetch_proxy default_cfg (numbered_world 50) 0 (init_state empty_cache)) =
    Ok None ∧
  checked (evs (_fetch_proxy default_cfg (numbered_world 50) 0
                  (init_state empty_cache))) = numbered_endpoints 50 ∧
  batched (evs (_fetch_proxy small_cfg (numbered_world 10) 0
                  (init_state empty_cache))) = [numbered_endpoints 10].
Proof.
  assert (Hfresh : ∀ k, fresh_list 0 (init_state empty_cache)
                          (numbered_endpoints k) = numbered_endpoints k).
  { intros k. by apply fresh_list_no_bad_set. }
  assert (HparseC : parse_proxies (numbered_world 1500)
                      (JArr (obj <$> numbered_endpoints 1500)) =
                    inr (numbered_endpoints 1500)).
  { apply parse_proxies_records. vm_compute. reflexivity. }
  assert (HparseD : parse_proxies (numbered_world 50)
                      (JArr (obj <$> numbered_endpoints 50)) =
                    inr (numbered_endpoints 50)).
  { apply parse_proxies_records. vm_compute. reflexivity. }
  assert (HparseE : parse_proxies (numbered_world 10)
                      (JArr (obj <$> numbered_endpoints 10)) =
                    inr (numbered_endpoints 10)).
  { apply parse_proxies_records. vm_compute. reflexivity. }
  pose proof (batch_cutover_at_batch_size default_cfg (numbered_world 1500) 0
                (init_state empty_cache) example_url _ _
                eq_refl eq_refl eq_refl HparseC) as HC.
  pose proof (batch_cutover_at_batch_size default_cfg (numbered_world 50) 0
                (init_state empty_cache) example_url _ _
                eq_refl eq_refl eq_refl HparseD) as HD.
  pose proof (batch_cutover_at_batch_size small_cfg (numbered_world 10) 0
                (init_state empty_cache) example_url _ _
                eq_refl eq_refl eq_refl HparseE) as HE.
  cbv zeta in HC, HD, HE. rewrite Hfresh, length_numbered_endpoints in HC, HD, HE.
  destruct HC as [HC _]; [cbn; lia|].
  destruct HC as (HbC & _ & HrestC); [cbn; lia|].
  destruct HD as [_ HD]; [cbn; lia|].
  destruct HD as (HbD & _ & _ & HD); [cbn; lia|].
  destruct HE as [HE _]; [cbn; lia|].
  destruct HE as (HbE & _); [cbn; lia|].
  split; [exact HbC|].
  split; [exact (HrestC (numbered_endpoints_NoDup 1500))|]. split; [exact HbD|].
  destruct (res (_fetch_proxy default_cfg (numbered_world 50) 0
                   (init_state empty_cache))) as [[p|]|e].
  - destruct HD as (i & Hl & Hp & _). discriminate Hp.
  - split; [reflexivity|]. split; [exact (proj2 HD)|exact HbE].
  - destruct HD.
Defined.

(** The list cached when "5.6.7.8:3128" is in the bad set. *)
Lemma fresh_list_cached_after_bad_filter_witness :
  EvSetList ["1.2.3.4:8080"] (Some 86400) ∈
    evs (_fetch_proxy (MkConfig (Some example_url) 10 86400) two_proxies_world 0
           (init_state one_bad_cache)) ∧
  http_proxies_requested
    (cache (st (_fetch_proxy (MkConfig (Some example_url) 10 86400)
                  two_proxies_world 0 (init_state one_bad_cache)))) =
    Some (Entry ["1.2.3.4:8080"] (Some 86400)).
Proof.
  exact (fresh_list_cached_after_bad_filter (MkConfig (Some example_url) 10 86400)
           two_proxies_world 0 (init_state one_bad_cache) example_url two_proxies
           ["1.2.3.4:8080"; "5.6.7.8:3128"] eq_refl eq_refl eq_refl eq_refl).
Defined.

(** Scenario B, followed by one more call. *)
Lemma unhealthy_cached_proxy_deleted_witness :
  let o := get_proxy default_cfg two_proxies_world 0 (init_state scenario_b_cache) in
  evs o =
    EvCheck "5.6.7.8:3128" false :: EvDelete "working_proxy" ::
    evs (_fetch_proxy default_cfg two_proxies_world 0
           (revalidated (init_state scenario_b_cache))) ∧
  working_proxy (cache (run_calls default_cfg two_proxies_world [60] (st o)).1) = None.
Proof.
  destruct (unhealthy_cached_proxy_deleted default_cfg two_proxies_world 0
              (init_state scenario_b_cache) "5.6.7.8:3128" [60] eq_refl eq_refl)
    as (_ & _ & _ & Hev & _).
  split; [exact Hev|]. vm_compute. reflexivity.
Defined.

(** Scenario B without a source URL. *)
Lemma get_proxy_no_url_no_fetch_witness :
  res (get_proxy (MkConfig None 1000 86400) two_proxies_world 0
         (init_state scenario_b_cache)) = Ok None ∧
  fetched (evs (get_proxy (MkConfig None 1000 86400) two_proxies_world 0
                  (init_state scenario_b_cache))) = [] ∧
  fetches (st (get_proxy (MkConfig None 1000 86400) two_proxies_world 0
                 (init_state scenario_b_cache))) = 0%nat.
Proof.
  apply (get_proxy_no_url_no_fetch (MkConfig None 1000 86400) two_proxies_world 0
           (init_state scenario_b_cache)).
  - reflexivity.
  - intros p Hp. reflexivity.
Defined.


(** * Further properties of the program *)

(** ** The bad set *)

(** The sequential loop never removes a proxy from the bad set; it adds
    exactly the proxies whose check failed. *)
Lemma sequential_loop_bad w now l : ∀ a m s,
  bad_of now s ⊆ bad_of now (st (sequential_loop w now l a m s)) ∧
  (∀ p, p ∈ bad_of now (st (sequential_loop w now l a m s)) →
        p ∈ bad_of now s ∨ EvCheck p false ∈ evs (sequential_loop w now l a m s)) ∧
  (∀ p, EvCheck p false ∈ evs (sequential_loop w now l a m s) →
        p ∈ bad_of now (st (sequential_loop w now l a m s))).
Proof.
  induction l as [|p l IH]; intros a m s; cbn [sequential_loop].
  - prog_cbn. split; [done|]. split; [auto|]. by intros q ?%elem_of_nil.
  - destruct (a <? m).
    2: { prog_cbn. split; [done|]. split; [auto|]. by intros q ?%elem_of_nil. }
    run_goal. destruct (probe w (probes s) p); prog_cbn.
    + split; [done|]. split; [auto|].
      intros q Hq. apply elem_of_cons in Hq as [Hq|Hq]; [simplify_eq|].
      apply elem_of_cons in Hq as [Hq|Hq]; [simplify_eq|].
      by apply elem_of_nil in Hq.
    + match goal with |- context [sequential_loop w now l ?a' m ?s'] =>
        specialize (IH a' m s');
        assert (Hb : bad_of now s' = {[p]} ∪ bad_of now s) by reflexivity;
        destruct (sequential_loop w now l a' m s') as [r s2 es]
      end; prog_cbn_in IH; prog_cbn. rewrite Hb in IH.
      destruct IH as (Hsub & Honly & Hall). split; [set_solver|]. split.
      * intros q [[->%elem_of_singleton|?]%elem_of_union|?]%Honly.
        -- right. apply elem_of_cons. by left.
        -- by left.
        -- right. do 2 (apply elem_of_cons; right). done.
      * intros q Hq. apply elem_of_cons in Hq as [Hq|Hq].
        { simplify_eq. apply Hsub. set_solver. }
        apply elem_of_cons in Hq as [Hq|Hq]; [simplify_eq|]. by apply Hall.
Qed.

Lemma batch_loop_bad now results : ∀ s,
  bad_of now s ⊆ bad_of now (st (batch_loop now results s)) ∧
  (∀ p, p ∈ bad_of now (st (batch_loop now results s)) →
        p ∈ bad_of now s ∨ (p, false) ∈ results).
Proof.
  induction results as [|[p b] results IH]; intros s; cbn [batch_loop].
  - prog_cbn. split; [done|auto].
  - destruct b; run_goal.
    + split; [done|auto].
    + match goal with |- context [batch_loop now results ?s'] =>
        specialize (IH s');
        assert (Hb : bad_of now s' = {[p]} ∪ bad_of now s) by reflexivity;
        destruct (batch_loop now results s') as [r s2 es]
      end; prog_cbn_in IH; prog_cbn. rewrite Hb in IH.
      destruct IH as (Hsub & Honly). split; [set_solver|].
      intros q [[->%elem_of_singleton|?]%elem_of_union|?]%Honly.
      * right. apply elem_of_cons. by left.
      * by left.
      * right. apply elem_of_cons. by right.
Qed.

Lemma batch_loop_checked now results : ∀ s,
  checked (evs (batch_loop now results s)) = [].
Proof.
  induction results as [|[p b] results IH]; intros s; cbn [batch_loop].
  - done.
  - destruct b; run_goal; [done|].
    match goal with |- context [batch_loop now results ?s'] =>
      specialize (IH s'); destruct (batch_loop now results s') as [r s2 es]
    end; prog_cbn_in IH; prog_cbn. done.
Qed.

(** ** The proxy that is returned *)

Lemma sequential_loop_some w now l p : ∀ a m s,
  res (sequential_loop w now l a m s) = Ok (Some p) →
  working_proxy (cache (st (sequential_loop w now l a m s))) = Some (Entry p None) ∧
  EvCheck p true ∈ evs (sequential_loop w now l a m s).
Proof.
  induction l as [|q l IH]; intros a m s; cbn [sequential_loop].
  - done.
  - destruct (a <? m); [|done].
    run_goal. destruct (probe w (probes s) q); prog_cbn.
    + intros [= ->]. split; [done|]. apply elem_of_cons. by left.
    + match goal with |- context [sequential_loop w now l ?a' m ?s'] =>
        specialize (IH a' m s'); destruct (sequential_loop w now l a' m s') as [r s2 es]
      end; prog_cbn_in IH; prog_cbn.
      intros Hr. destruct (IH Hr) as [Hw Hin]. split; [done|].
      do 2 (apply elem_of_cons; right). done.
Qed.

Lemma batch_loop_some now results p : ∀ s,
  res (batch_loop now results s) = Ok (Some p) →
  working_proxy (cache (st (batch_loop now results s))) = Some (Entry p None) ∧
  (p, true) ∈ results.
Proof.
  induction results as [|[q b] results IH]; intros s; cbn [batch_loop].
  - done.
  - destruct b; run_goal.
    + intros [= ->]. split; [done|]. apply elem_of_cons. by left.
    + match goal with |- context [batch_loop now results ?s'] =>
        specialize (IH s'); destruct (batch_loop now results s') as [r s2 es]
      end; prog_cbn_in IH; prog_cbn.
      intros Hr. destruct (IH Hr) as [Hw Hin]. split; [done|].
      apply elem_of_cons. by right.
Qed.

(** ** The two phases of a test, spelled out *)

(** [_test_proxy_batch]: one check per candidate, started in some order,
    then the loop over the results in some order. *)
Lemma _test_proxy_batch_run w now l s :
  ∃ tasks results,
    map fst tasks ≡ₚ l ∧ results ≡ₚ tasks ∧
    _test_proxy_batch w now l s =
      MkOutcome
        (res (batch_loop now results
                (MkState (cache s) (fetches s) (probes s + length l) (S (batches s)))))
        (st (batch_loop now results
               (MkState (cache s) (fetches s) (probes s + length l) (S (batches s)))))
        (EvBatch l :: map (λ t, EvCheck t.1 t.2) tasks ++
         evs (batch_loop now results
                (MkState (cache s) (fetches s) (probes s + length l) (S (batches s))))).
Proof.
  unfold _test_proxy_batch.
  pose proof (set_order_perm (scheduling w (batches s)) l) as Hstart.
  destruct (launch_tasks w (set_order (scheduling w (batches s)) l) s)
    as (tasks & Hrun & Hfst).
  rewrite (Permutation_length Hstart) in Hrun.
  exists tasks,
    (as_completed (completion w (batches s)) 0 (length tasks) tasks).
  split; [by rewrite Hfst|]. split; [apply as_completed_perm|].
  rewrite (bind_ok _ _ s tt) by reflexivity. cbn [emit st evs res].
  rewrite (bind_ok _ _ s (set_order (scheduling w (batches s)) l)) by reflexivity.
  cbn [scheduled st evs res app].
  rewrite (bind_ok _ _ s tasks) by (by rewrite Hrun).
  rewrite Hrun. cbn [st evs res].
  match goal with |- context [(completed w tasks ≫= ?f) ?s'] =>
    rewrite (bind_ok (completed w tasks) f s'
               (as_completed (completion w (batches s')) 0 (length tasks) tasks))
      by reflexivity
  end.
  cbn [completed st evs res batches app]. prog_cbn. reflexivity.
Qed.

(** [test_candidates]: the sequential loop alone; the batch that returns a
    proxy Python takes as true; or the batch followed by the loop. *)
Lemma test_candidates_cases cfg w now l s :
  ((batch_size cfg <=? Z.of_nat (length l)) = false ∧
   test_candidates cfg w now l s =
     sequential_loop w now l 0
       (Z.min (batch_size cfg) (Z.of_nat (length l))) s) ∨
  ((batch_size cfg <=? Z.of_nat (length l)) = true ∧
   ∃ r, res (_test_proxy_batch w now l s) = Ok r ∧ truthy r = true ∧
        test_candidates cfg w now l s =
          MkOutcome (Ok r) (st (_test_proxy_batch w now l s))
            (evs (_test_proxy_batch w now l s))) ∨
  ((batch_size cfg <=? Z.of_nat (length l)) = true ∧
   ∃ r, res (_test_proxy_batch w now l s) = Ok r ∧ truthy r = false ∧
        test_candidates cfg w now l s =
          MkOutcome
            (res (sequential_loop w now l 0
                    (Z.min (batch_size cfg) (Z.of_nat (length l)))
                    (st (_test_proxy_batch w now l s))))
            (st (sequential_loop w now l 0
                   (Z.min (batch_size cfg) (Z.of_nat (length l)))
                   (st (_test_proxy_batch w now l s))))
            (evs (_test_proxy_batch w now l s) ++
             evs (sequential_loop w now l 0
                    (Z.min (batch_size cfg) (Z.of_nat (length l)))
                    (st (_test_proxy_batch w now l s))))).
Proof.
  unfold test_candidates.
  destruct (batch_size cfg <=? Z.of_nat (length l)).
  - right.
    destruct (_test_proxy_batch_post w now l s) as (es1 & _ & _ & Hpost).
    destruct (tp_res _ _ _ Hpost) as [r Hr].
    rewrite (bind_ok _ _ s r Hr).
    destruct (truthy r) eqn:Ht; [left|right]; (split; [done|]); exists r;
      (split; [done|]); (split; [done|]); prog_cbn.
    + by rewrite app_nil_r.
    + done.
  - left. split; [done|]. by rewrite bind_ret_l.
Qed.

Lemma checked_batch_events (tasks : list (string * bool)) :
  checked (map (λ t, EvCheck t.1 t.2) tasks) = map fst tasks.
Proof. induction tasks as [|[p b] tasks IH]; [done|]. cbn. by f_equal. Qed.

(** The batch checks each of its candidates once, in some order. *)
Lemma _test_proxy_batch_checked w now l s :
  checked (evs (_test_proxy_batch w now l s)) ≡ₚ l.
Proof.
  destruct (_test_proxy_batch_run w now l s) as (tasks & results & Hfst & _ & ->).
  cbn [evs]. change (EvBatch l :: ?es) with ([EvBatch l] ++ es).
  rewrite !checked_app, checked_batch_events, batch_loop_checked, Hfst.
  cbn. by rewrite app_nil_r.
Qed.

Lemma _test_proxy_batch_bad w now l s :
  bad_of now s ⊆ bad_of now (st (_test_proxy_batch w now l s)) ∧
  (∀ p, p ∈ bad_of now (st (_test_proxy_batch w now l s)) →
        p ∈ bad_of now s ∨ EvCheck p false ∈ evs (_test_proxy_batch w now l s)).
Proof.
  destruct (_test_proxy_batch_run w now l s)
    as (tasks & results & Hfst & Hperm & ->). cbn [st evs].
  destruct (batch_loop_bad now results
              (MkState (cache s) (fetches s) (probes s + length l) (S (batches s))))
    as [Hsub Honly].
  split; [exact Hsub|]. intros p [Hp|Hp]%Honly; [by left|]. right.
  apply elem_of_cons. right. apply elem_of_app. left.
  apply list_elem_of_fmap. exists (p, false). split; [done|]. by rewrite <- Hperm.
Qed.

Lemma _test_proxy_batch_some w now l s p :
  res (_test_proxy_batch w now l s) = Ok (Some p) →
  working_proxy (cache (st (_test_proxy_batch w now l s))) = Some (Entry p None) ∧
  EvCheck p true ∈ evs (_test_proxy_batch w now l s).
Proof.
  destruct (_test_proxy_batch_run w now l s)
    as (tasks & results & Hfst & Hperm & ->). cbn [res st evs].
  intros [Hw Hin]%batch_loop_some. split; [done|].
  apply elem_of_cons. right. apply elem_of_app. left.
  apply list_elem_of_fmap. exists (p, true). split; [done|]. by rewrite <- Hperm.
Qed.

Lemma test_candidates_some cfg w now l s p :
  res (test_candidates cfg w now l s) = Ok (Some p) →
  working_proxy (cache (st (test_candidates cfg w now l s))) = Some (Entry p None) ∧
  EvCheck p true ∈ evs (test_candidates cfg w now l s).
Proof.
  destruct (test_candidates_cases cfg w now l s)
    as [[_ ->]|[(_ & r & Hr & _ & ->)|(_ & r & Hr & _ & ->)]]; cbn [res st evs].
  - apply sequential_loop_some.
  - intros [= ->]. by apply _test_proxy_batch_some.
  - intros [Hw Hin]%sequential_loop_some. split; [done|].
    apply elem_of_app. by right.
Qed.

Lemma _fetch_proxy_some cfg w now s p :
  res (_fetch_proxy cfg w now s) = Ok (Some p) →
  working_proxy (cache (st (_fetch_proxy cfg w now s))) = Some (Entry p None) ∧
  EvCheck p true ∈ evs (_fetch_proxy cfg w now s).
Proof.
  destruct (_fetch_proxy_cases cfg w now s)
    as [[_ ->]|[(url & e & _ & _ & He & ->)|
        [(url & rj & parsed & _ & _ & _ & _ & ->)|(url & l & _ & _ & ->)]]];
    cbn [res st evs]; [done|done| |].
  - intros [Hw Hin]%test_candidates_some. split; [done|].
    apply elem_of_app. by right.
  - apply test_candidates_some.
Qed.

(** X1: a proxy returned by [get_proxy] passed a liveness check during that
    call, and is what the cache holds under 'working_proxy' when the call
    ends. *)
Theorem returned_proxy_checked_and_cached cfg w now s p :
  res (get_proxy cfg w now s) = Ok (Some p) →
  EvCheck p true ∈ evs (get_proxy cfg w now s) ∧
  slot_get now (working_proxy (cache (st (get_proxy cfg w now s)))) = Some p.
Proof.
  destruct (get_proxy_cases cfg w now s)
    as [[_ ->]|[(q & Hq & _ & ->)|(q & _ & _ & ->)]]; cbn [res st evs cache].
  - intros Hr. apply _fetch_proxy_some in Hr as [Hw Hin]. split; [done|]. by rewrite Hw.
  - intros [= ->]. split; [|done]. apply elem_of_cons. by left.
  - intros Hr. apply _fetch_proxy_some in Hr as [Hw Hin]. split; [|by rewrite Hw].
    do 2 (apply elem_of_cons; right). done.
Qed.

Lemma test_candidates_bad cfg w now l s :
  bad_of now s ⊆ bad_of now (st (test_candidates cfg w now l s)) ∧
  (∀ p, p ∈ bad_of now (st (test_candidates cfg w now l s)) →
        p ∈ bad_of now s ∨ EvCheck p false ∈ evs (test_candidates cfg w now l s)).
Proof.
  destruct (test_candidates_cases cfg w now l s)
    as [[_ ->]|[(_ & r & Hr & _ & ->)|(_ & r & Hr & _ & ->)]]; cbn [res st evs].
  - destruct (sequential_loop_bad w now l 0
                (Z.min (batch_size cfg) (Z.of_nat (length l))) s) as (? & ? & _).
    done.
  - apply _test_proxy_batch_bad.
  - destruct (_test_proxy_batch_bad w now l s) as [Hsub1 Honly1].
    destruct (sequential_loop_bad w now l 0
                (Z.min (batch_size cfg) (Z.of_nat (length l)))
                (st (_test_proxy_batch w now l s))) as (Hsub2 & Honly2 & _).
    split; [by etrans|].
    intros p [[Hp|Hp]%Honly1|Hp]%Honly2.
    + by left.
    + right. apply elem_of_app. by left.
    + right. apply elem_of_app. by right.
Qed.

Lemma _fetch_proxy_bad cfg w now s :
  bad_of now s ⊆ bad_of now (st (_fetch_proxy cfg w now s)) ∧
  (∀ p, p ∈ bad_of now (st (_fetch_proxy cfg w now s)) →
        p ∈ bad_of now s ∨ EvCheck p false ∈ evs (_fetch_proxy cfg w now s)).
Proof.
  destruct (_fetch_proxy_cases cfg w now s)
    as [[_ ->]|[(url & e & _ & _ & He & ->)|
        [(url & rj & parsed & _ & _ & _ & _ & ->)|(url & l & _ & _ & ->)]]];
    cbn [res st evs]; [split; [done|auto]|split; [done|auto]| |].
  - destruct (test_candidates_bad cfg w now
                (slice_to (fresh_list now s parsed) (batch_size cfg))
                (fresh_state cfg now s (fresh_list now s parsed))) as [Hsub Honly].
    split; [exact Hsub|]. intros p [Hp|Hp]%Honly; [by left|].
    right. apply elem_of_app. by right.
  - apply test_candidates_bad.
Qed.

(** X2: [get_proxy] never removes a proxy from the bad set it reads, and a
    proxy it adds is one whose liveness check failed during the call. *)
Theorem bad_set_grows_by_failed_checks cfg w now s :
  bad_of now s ⊆ bad_of now (st (get_proxy cfg w now s)) ∧
  (∀ p, p ∈ bad_of now (st (get_proxy cfg w now s)) →
        p ∈ bad_of now s ∨ EvCheck p false ∈ evs (get_proxy cfg w now s)).
Proof.
  destruct (get_proxy_cases cfg w now s)
    as [[_ ->]|[(q & _ & _ & ->)|(q & _ & _ & ->)]]; cbn [res st evs].
  - apply _fetch_proxy_bad.
  - split; [done|auto].
  - destruct (_fetch_proxy_bad cfg w now (revalidated s)) as [Hsub Honly].
    split; [exact Hsub|]. intros p [Hp|Hp]%Honly; [by left|].
    right. do 2 (apply elem_of_cons; right). done.
Qed.

(** ** Candidates that are used up *)

Lemma sequential_loop_none w now l : ∀ a m s,
  res (sequential_loop w now l a m s) = Ok None →
  Z.of_nat (length l) ≤ m - a →
  ∀ p, p ∈ l → p ∈ bad_of now (st (sequential_loop w now l a m s)).
Proof.
  induction l as [|q l IH]; intros a m s; cbn [sequential_loop].
  - by intros _ _ p ?%elem_of_nil.
  - intros Hres Hlen. rewrite length_cons in Hlen.
    assert ((a <? m) = true) as Hlt by lia. rewrite Hlt in Hres |- *.
    pose proof (sequential_loop_bad w now l (a + 1) m) as Hbad.
    revert Hres. run_goal. destruct (probe w (probes s) q); prog_cbn; [done|].
    match goal with |- context [sequential_loop w now l ?a' m ?s'] =>
      specialize (IH a' m s'); specialize (Hbad s');
      assert (Hb : bad_of now s' = {[q]} ∪ bad_of now s) by reflexivity;
      destruct (sequential_loop w now l a' m s') as [r s2 es]
    end; prog_cbn_in IH; prog_cbn_in Hbad; prog_cbn.
    intros Hr p [->|Hp]%elem_of_cons.
    + destruct Hbad as (Hsub & _). apply Hsub. rewrite Hb. set_solver.
    + apply IH; [done|lia|done].
Qed.

Lemma slice_to_length {A} (l : list A) n :
  0 ≤ n → Z.of_nat (length (slice_to l n)) ≤ n.
Proof.
  intros Hn. unfold slice_to. assert ((0 <=? n) = true) as -> by lia.
  rewrite length_take. lia.
Qed.

Lemma test_candidates_none cfg w now l s :
  Z.of_nat (length l) ≤ batch_size cfg →
  res (test_candidates cfg w now l s) = Ok None →
  ∀ p, p ∈ l → p ∈ bad_of now (st (test_candidates cfg w now l s)).
Proof.
  intros Hlen.
  destruct (test_candidates_cases cfg w now l s)
    as [[_ ->]|[(_ & r & Hr & Ht & ->)|(_ & r & Hr & _ & ->)]]; cbn [res st evs].
  - intros Hres. apply (sequential_loop_none _ _ _ _ _ _ Hres). lia.
  - intros [= ->]. done.
  - intros Hres. apply (sequential_loop_none _ _ _ _ _ _ Hres). lia.
Qed.

(** X3: with [batch_size] at least 0, a [_fetch_proxy] that reaches the
    candidates and returns [None] has recorded every one of them in the bad
    set, so that the next call filters all of them out. *)
Theorem exhausted_candidates_are_bad cfg w now s url listed :
  0 ≤ batch_size cfg →
  proxy_url cfg = Some url →
  (slot_get now (http_proxies_requested (cache s)) = Some listed ∨
   slot_get now (http_proxies_requested (cache s)) = None ∧
   ∃ response_json, source w (fetches s) = inr response_json ∧
                    parse_proxies w response_json = inr listed) →
  res (_fetch_proxy cfg w now s) = Ok None →
  ∀ p, p ∈ slice_to (fresh_list now s listed) (batch_size cfg) →
       p ∈ bad_of now (st (_fetch_proxy cfg w now s)).
Proof.
  intros Hbs Hurl [Hhit|(Hmiss & rj & Hsrc & Hparse)].
  - rewrite (_fetch_proxy_cached cfg w now s url listed Hurl Hhit).
    apply test_candidates_none. by apply slice_to_length.
  - rewrite (_fetch_proxy_fresh cfg w now s url rj listed Hurl Hmiss Hsrc Hparse).
    cbn [res st]. apply test_candidates_none. by apply slice_to_length.
Qed.

(** ** The number of checks *)

Lemma test_candidates_check_count cfg w now l s :
  (length (checked (evs (test_candidates cfg w now l s))) ≤ 2 * length l)%nat.
Proof.
  pose proof (λ s', prefix_length _ _
                (sequential_loop_checked w now l 0
                   (Z.min (batch_size cfg) (Z.of_nat (length l))) s')) as Hseq.
  destruct (test_candidates_cases cfg w now l s)
    as [[_ ->]|[(_ & r & Hr & Ht & ->)|(_ & r & Hr & _ & ->)]]; cbn [res st evs].
  - specialize (Hseq s). lia.
  - rewrite _test_proxy_batch_checked. lia.
  - rewrite checked_app, length_app, _test_proxy_batch_checked.
    specialize (Hseq (st (_test_proxy_batch w now l s))). lia.
Qed.

Lemma _fetch_proxy_check_count cfg w now s :
  0 ≤ batch_size cfg →
  Z.of_nat (length (checked (evs (_fetch_proxy cfg w now s)))) ≤ 2 * batch_size cfg.
Proof.
  intros Hbs.
  destruct (_fetch_proxy_cases cfg w now s)
    as [[_ ->]|[(url & e & _ & _ & He & ->)|
        [(url & rj & parsed & _ & _ & _ & _ & ->)|(url & l & _ & _ & ->)]]];
    cbn [res st evs]; [cbn; lia|cbn; lia| |].
  - rewrite checked_app, checked_fresh_events. cbn [app].
    pose proof (test_candidates_check_count cfg w now
                  (slice_to (fresh_list now s parsed) (batch_size cfg))
                  (fresh_state cfg now s (fresh_list now s parsed))).
    pose proof (slice_to_length (fresh_list now s parsed) _ Hbs). lia.
  - pose proof (test_candidates_check_count cfg w now
                  (slice_to (fresh_list now s l) (batch_size cfg)) s).
    pose proof (slice_to_length (fresh_list now s l) _ Hbs). lia.
Qed.

(** X4: with [batch_size] at least 0, one call of [get_proxy] makes at most
    [2 * batch_size + 1] liveness checks: one of the cached proxy, and each
    of at most [batch_size] candidates in the batch and in the loop. *)
Theorem get_proxy_check_count cfg w now s :
  0 ≤ batch_size cfg →
  Z.of_nat (length (checked (evs (get_proxy cfg w now s)))) ≤
    2 * batch_size cfg + 1.
Proof.
  intros Hbs.
  destruct (get_proxy_cases cfg w now s)
    as [[_ ->]|[(q & _ & _ & ->)|(q & _ & _ & ->)]]; cbn [res st evs].
  - pose proof (_fetch_proxy_check_count cfg w now s Hbs). lia.
  - cbn. lia.
  - pose proof (_fetch_proxy_check_count cfg w now (revalidated s) Hbs).
    change (EvCheck q false :: EvDelete "working_proxy" :: ?es)
      with ([EvCheck q false; EvDelete "working_proxy"] ++ es).
    rewrite checked_app, length_app.
    change (checked [EvCheck q false; EvDelete "working_proxy"]) with [q].
    cbn [length]. lia.
Qed.

(** ** The order of the sequential loop *)


(** ** The reply of the source *)

(** [needle in s] is the occurrence of [needle] in [s]. *)
Lemma prefix_contains needle : ∀ s,
  String.prefix needle s = true → ∃ post, s = needle +:+ post.
Proof.
  induction needle as [|a needle IH]; intros s; [by exists s|].
  destruct s as [|b s]; [done|]. cbn [String.prefix].
  destruct (Ascii.ascii_dec a b) as [->|]; [|done].
  intros [post ->]%IH. by exists post.
Qed.

Lemma str_in_contains needle s : str_in needle s = true ↔ contains needle s.
Proof.
  split; [|intros (pre & post & ->); apply str_in_append].
  induction s as [|a s IH]; rewrite str_in_unfold.
  - rewrite orb_false_r. intros [post ->]%prefix_contains. by exists "", post.
  - intros [[post ->]%prefix_contains|(pre & post & ->)%IH]%orb_true_iff.
    + by exists "", post.
    + by exists (String a pre), post.
Qed.

Lemma excluded_edge_listed proxy : excluded proxy = true ↔ edge_listed proxy.
Proof.
  unfold excluded, edge_listed. by rewrite orb_true_iff, !str_in_contains.
Qed.

(** [d[key]] is the value of the item of [d] with that key. *)
Lemma field_Some key fields v :
  field key fields = Some v ↔
  ∃ before after, fields = before ++ (key, v) :: after ∧ key ∉ before.*1.
Proof.
  induction fields as [|[k x] fields IH]; cbn [field].
  - split; [done|]. by intros ([|??] & ? & ? & _).
  - destruct (String.eqb_spec k key) as [->|Hne].
    + split.
      * intros [= ->]. exists [], fields. split; [done|]. by intros ?%elem_of_nil.
      * intros ([|[k' x'] before] & after & Heq & Hnot); simplify_eq/=; [done|].
        destruct Hnot. apply elem_of_cons. by left.
    + rewrite IH. split.
      * intros (before & after & -> & Hnot). exists ((k, x) :: before), after.
        split; [done|]. cbn. by intros [?|?]%elem_of_cons.
      * intros ([|[k' x'] before] & after & Heq & Hnot); simplify_eq/=.
        exists before, after. split; [done|].
        intros Hin. apply Hnot. apply elem_of_cons. by right.
Qed.

Lemma field_None key fields : field key fields = None ↔ key ∉ fields.*1.
Proof.
  induction fields as [|[k x] fields IH]; cbn [field].
  - split; [|done]. by intros _ ?%elem_of_nil.
  - destruct (String.eqb_spec k key) as [->|Hne].
    + split; [done|]. intros Hnot. destruct Hnot. apply elem_of_cons. by left.
    + rewrite IH. cbn. split.
      * by intros Hnot [?|?]%elem_of_cons.
      * intros Hnot Hin. apply Hnot. apply elem_of_cons. by right.
Qed.

Lemma proxy_of_field fields v :
  proxy_of (JObj fields) v ↔ field "proxy" fields = Some v.
Proof.
  rewrite field_Some. unfold proxy_of. split.
  - intros (before & after & [= ->] & Hnot). by exists before, after.
  - intros (before & after & -> & Hnot). by exists before, after.
Qed.

(** An element is read or raises. *)
Lemma readable_or_unreadable element :
  readable element ∨ ∃ e, unreadable element e.
Proof.
  destruct element as [| | | | |fields];
    try (right; exists TypeError; by apply not_a_dict).
  destruct (field "proxy" fields) as [v|] eqn:Hv.
  - apply proxy_of_field in Hv.
    destruct v as [|b|n|s|items|fields0].
    + right. exists TypeError. apply (proxy_is_scalar _ _ Hv). by left.
    + right. exists TypeError. apply (proxy_is_scalar _ _ Hv). right. left. by exists b.
    + right. exists TypeError. apply (proxy_is_scalar _ _ Hv). right. right. by exists n.
    + left. exists (JStr s). split; [exact Hv|]. by intros [?|[[? ?]|[? ?]]].
    + left. exists (JArr items). split; [exact Hv|]. by intros [?|[[? ?]|[? ?]]].
    + left. exists (JObj fields0). split; [exact Hv|]. by intros [?|[[? ?]|[? ?]]].
  - right. exists (KeyError "proxy"). by apply no_proxy_key, field_None.
Qed.

Lemma parse_elements_readable w element rest e :
  readable element →
  parse_elements w (element :: rest) = inl e ↔ parse_elements w rest = inl e.
Proof.
  intros (v & (before & after & -> & Hnot) & Hv). cbn [parse_elements subscript].
  assert (field "proxy" (before ++ ("proxy", v) :: after) = Some v) as ->.
  { apply field_Some. by exists before, after. }
  assert (∃ b, excluded_value v = inr b) as [b ->].
  { unfold excluded_value.
    destruct v as [|b|n|t|items|fields]; cbn [py_in].
    - destruct Hv. by left.
    - destruct Hv. right. left. by exists b.
    - destruct Hv. right. right. by exists n.
    - destruct (str_in "172.67" t); eauto.
    - destruct (existsb _ items); eauto.
    - destruct (existsb _ fields); eauto. }
  destruct (parse_elements w rest) as [e'|l]; [done|]. by destruct b.
Qed.

Lemma parse_elements_unreadable w element rest e :
  unreadable element e → parse_elements w (element :: rest) = inl e.
Proof.
  intros [el Hel|fields Hnone|el v (before & after & -> & Hnot) Hv];
    cbn [parse_elements subscript].
  - destruct el; try done. by destruct (Hel fields).
  - by apply field_None in Hnone as ->.
  - assert (field "proxy" (before ++ ("proxy", v) :: after) = Some v) as ->.
    { apply field_Some. by exists before, after. }
    by destruct Hv as [->|[[b ->]|[n ->]]].
Qed.

(** X6: what the comprehension makes of the reply.  Of a list of records
    whose 'proxy' values are strings it yields, in order, those in which
    neither '172.67' nor '172.64' occurs.  On a list it raises exactly at
    the first element that it cannot read, after elements that it can: a
    [TypeError] for an element that is not a [dict] or whose 'proxy' is
    [None], a [bool] or a number, the [KeyError] of 'proxy' for a [dict]
    without that key.  A reply that is [None], a [bool] or a number raises a
    [TypeError], and so does a [dict] or a [str] that is not empty. *)
Theorem parse_proxies_spec w :
  (∀ items endpoints,
     Forall2 (λ item p, proxy_of item (JStr p)) items endpoints →
     ∃ parsed, parse_proxies w (JArr items) = inr parsed ∧ kept endpoints parsed) ∧
  (∀ items e,
     parse_proxies w (JArr items) = inl e ↔
     ∃ before element after,
       items = before ++ element :: after ∧
       Forall readable before ∧ unreadable element e) ∧
  (∀ reply, scalar reply → parse_proxies w reply = inl TypeError) ∧
  (∀ k v fields, parse_proxies w (JObj ((k, v) :: fields)) = inl TypeError) ∧
  (∀ a t, parse_proxies w (JStr (String a t)) = inl TypeError) ∧
  parse_proxies w (JObj []) = inr [] ∧ parse_proxies w (JStr "") = inr [].
Proof.
  split; [|split; [|split; [|by repeat split]]].
  - unfold parse_proxies. cbn [py_iter].
    induction 1 as [|item p items endpoints (before & after & -> & Hnot) _ IH].
    { exists []. split; [done|constructor]. }
    destruct IH as (parsed & Hparsed & Hkept).
    cbn [parse_elements subscript].
    assert (field "proxy" (before ++ ("proxy", JStr p) :: after) = Some (JStr p))
      as -> by (apply field_Some; by exists before, after).
    rewrite excluded_value_str, Hparsed. cbn [format].
    destruct (excluded p) eqn:Hex.
    + exists parsed. split; [done|]. apply kept_skip; [|done].
      by apply excluded_edge_listed.
    + exists (p :: parsed). split; [done|]. apply kept_keep; [|done].
      rewrite <- excluded_edge_listed. congruence.
  - intros items e. unfold parse_proxies. cbn [py_iter]. split.
    + induction items as [|item items IH]; [done|].
      destruct (readable_or_unreadable item) as [Hr|[e' Hu]].
      * rewrite (parse_elements_readable w item items e Hr).
        intros (before & element & after & -> & Hbefore & Hel)%IH.
        exists (item :: before), element, after.
        split; [done|]. split; [by constructor|done].
      * rewrite (parse_elements_unreadable w item items e' Hu).
        intros [= ->]. exists [], item, items. by repeat split.
    + intros (before & element & after & -> & Hbefore & Hel).
      induction Hbefore as [|item before Hr _ IH]; cbn [app].
      * by apply parse_elements_unreadable.
      * by apply parse_elements_readable.
  - by intros reply [->|[[b ->]|[n ->]]].
Qed.

(** ** The fetch of the list *)

Lemma test_candidates_fetched cfg w now l s :
  fetched (evs (test_candidates cfg w now l s)) = [].
Proof.
  destruct (test_candidates_post cfg w now l s) as (es & -> & Hes & _).
  unfold fetched. rewrite omap_app. fold (fetched es).
  rewrite (check_events_fetched l es Hes).
  by destruct (batch_size cfg <=? Z.of_nat (length l)).
Qed.

Lemma fetched_fresh_events cfg url pl : fetched (fresh_events cfg url pl) = [url].
Proof. unfold fresh_events. by case_bool_decide. Qed.

Lemma _fetch_proxy_fetched cfg w now s :
  fetched (evs (_fetch_proxy cfg w now s)) =
    match proxy_url cfg, slot_get now (http_proxies_requested (cache s)) with
    | Some url, None => [url]
    | _, _ => []
    end.
Proof.
  destruct (_fetch_proxy_cases cfg w now s)
    as [[-> ->]|[(url & e & -> & -> & He & ->)|
        [(url & rj & parsed & -> & -> & _ & _ & ->)|(url & l & -> & -> & ->)]]];
    cbn [res st evs]; [done|done| |].
  - unfold fetched. rewrite omap_app.
    fold (fetched (fresh_events cfg url (fresh_list now s parsed))).
    rewrite fetched_fresh_events. cbn [app]. f_equal.
    apply test_candidates_fetched.
  - apply test_candidates_fetched.
Qed.

(** X7: a call of [get_proxy] fetches the list at most once, and exactly
    when a source URL is configured, the cache has no readable list, and
    no cached working proxy passes its check. *)
Theorem get_proxy_fetch_condition cfg w now s :
  fetched (evs (get_proxy cfg w now s)) =
    match proxy_url cfg, slot_get now (http_proxies_requested (cache s)) with
    | Some url, None => if healthy_cached w now s then [] else [url]
    | _, _ => []
    end.
Proof.
  unfold healthy_cached.
  destruct (get_proxy_cases cfg w now s)
    as [[-> ->]|[(q & -> & -> & ->)|(q & -> & -> & ->)]]; cbn [res st evs].
  - apply _fetch_proxy_fetched.
  - by destruct (proxy_url cfg), (slot_get now (http_proxies_requested (cache s))).
  - change (fetched (EvCheck q false :: EvDelete "working_proxy" :: ?es))
      with (fetched es).
    apply (_fetch_proxy_fetched cfg w now (revalidated s)).
Qed.

Lemma get_proxy_list_hit cfg w t s e :
  http_proxies_requested (cache s) = Some e → live t e = true →
  fetched (evs (get_proxy cfg w t s)) = [] ∧
  fetches (st (get_proxy cfg w t s)) = fetches s ∧
  http_proxies_requested (cache (st (get_proxy cfg w t s))) = Some e.
Proof.
  intros Hslot Hlive.
  assert (Hread : ∀ s', http_proxies_requested (cache s') = Some e →
            slot_get t (http_proxies_requested (cache s')) = Some (value e)).
  { intros s' ->. unfold slot_get. by rewrite Hlive. }
  assert (Hfetch : ∀ s', http_proxies_requested (cache s') = Some e →
            fetched (evs (_fetch_proxy cfg w t s')) = [] ∧
            fetches (st (_fetch_proxy cfg w t s')) = fetches s' ∧
            http_proxies_requested (cache (st (_fetch_proxy cfg w t s'))) = Some e).
  { intros s' Hs'. specialize (Hread s' Hs').
    destruct (_fetch_proxy_cases cfg w t s')
      as [[_ ->]|[(url & e' & _ & ? & _)|
          [(url & rj & parsed & _ & ? & _)|(url & l & _ & _ & ->)]]];
      [done|congruence|congruence|].
    split; [apply test_candidates_fetched|].
    destruct (test_candidates_post cfg w t
                (slice_to (fresh_list t s' l) (batch_size cfg)) s')
      as (es & _ & _ & [_ Hf Hl _]).
    split; [done|]. by rewrite Hl. }
  destruct (get_proxy_cases cfg w t s)
    as [[_ ->]|[(q & _ & _ & ->)|(q & _ & _ & ->)]]; cbn [res st evs cache fetches].
  - by apply Hfetch.
  - done.
  - change (fetched (EvCheck q false :: EvDelete "working_proxy" :: ?es))
      with (fetched es).
    by apply (Hfetch (revalidated s)).
Qed.

(** X8: while the cached list is readable, no call of [get_proxy] fetches
    from the source, and none rewrites the list or renews its expiry. *)
Theorem cached_list_reused cfg w s e times :
  http_proxies_requested (cache s) = Some e →
  Forall (λ t, live t e = true) times →
  fetched (run_calls cfg w times s).2 = [] ∧
  fetches (run_calls cfg w times s).1 = fetches s ∧
  http_proxies_requested (cache (run_calls cfg w times s).1) = Some e.
Proof.
  revert s. induction times as [|t times IH]; intros s Hslot Hlive;
    cbn [run_calls fst snd]; [done|].
  apply Forall_cons in Hlive as [Ht Hlive].
  destruct (get_proxy_list_hit cfg w t s e Hslot Ht) as (Hf & Hn & Hs).
  destruct (IH _ Hs Hlive) as (Hf' & Hn' & Hs').
  split; [|split; [congruence|done]].
  unfold fetched in *. by rewrite omap_app, Hf, Hf'.
Qed.

(** ** A source that fails *)


(** ** A cached proxy that keeps working *)

Lemma run_calls_healthy cfg w p times : ∀ s,
  working_proxy (cache s) = Some (Entry p None) →
  (∀ n, (probes s ≤ n)%nat → probe w n p = true) →
  cache (run_calls cfg w times s).1 = cache s ∧
  (probes s ≤ probes (run_calls cfg w times s).1)%nat ∧
  (run_calls cfg w times s).2 = replicate (length times) (EvCheck p true).
Proof.
  induction times as [|t times IH]; intros s Hwp Hprobe; cbn [run_calls fst snd].
  - done.
  - assert (Hread : slot_get t (working_proxy (cache s)) = Some p)
      by (by rewrite Hwp).
    rewrite (get_proxy_healthy cfg w t s p Hread (Hprobe _ (le_n _))).
    cbn [st evs].
    destruct (IH (MkState (cache s) (fetches s) (S (probes s)) (batches s)))
      as (Hc & Hn & Hev); [done|intros n Hn; apply Hprobe; cbn in Hn; lia|].
    prog_cbn_in Hc. prog_cbn_in Hn. split; [done|]. split; [lia|].
    cbn [length replicate app]. by rewrite Hev.
Qed.

(** X10: a working proxy cached without expiry that passes every check is
    returned by every call of [get_proxy], at the cost of one check per
    call: nothing is fetched, no candidate is checked, and the cache is
    left as it was. *)
Theorem healthy_cached_proxy_reused cfg w p s times t :
  working_proxy (cache s) = Some (Entry p None) →
  (∀ n, (probes s ≤ n)%nat → probe w n p = true) →
  cache (run_calls cfg w times s).1 = cache s ∧
  (run_calls cfg w times s).2 = replicate (length times) (EvCheck p true) ∧
  res (get_proxy cfg w t (run_calls cfg w times s).1) = Ok (Some p) ∧
  evs (get_proxy cfg w t (run_calls cfg w times s).1) = [EvCheck p true] ∧
  cache (st (get_proxy cfg w t (run_calls cfg w times s).1)) = cache s.
Proof.
  intros Hwp Hprobe.
  destruct (run_calls_healthy cfg w p times s Hwp Hprobe) as (Hc & Hn & Hev).
  split; [done|]. split; [done|].
  assert (Hread : slot_get t (working_proxy (cache (run_calls cfg w times s).1))
                  = Some p) by (by rewrite Hc, Hwp).
  rewrite (get_proxy_healthy cfg w t _ p Hread (Hprobe _ Hn)). cbn [res st evs cache].
  done.
Qed.

(** ** The outcome of the batch *)

Lemma batch_loop_result now results : ∀ s,
  match res (batch_loop now results s) with
  | Ok (Some p) => (p, true) ∈ results
  | Ok None =>
      (∀ t, t ∈ results → t.2 = false) ∧
      (∀ t, t ∈ results → t.1 ∈ bad_of now (st (batch_loop now results s)))
  | Raise _ => False
  end.
Proof.
  induction results as [|[q b] results IH]; intros s; cbn [batch_loop].
  - prog_cbn. split; by intros t ?%elem_of_nil.
  - destruct b; run_goal.
    + apply elem_of_cons. by left.
    + pose proof (batch_loop_bad now results) as Hbad.
      match goal with |- context [batch_loop now results ?s'] =>
        specialize (IH s'); specialize (Hbad s');
        assert (Hb : bad_of now s' = {[q]} ∪ bad_of now s) by reflexivity;
        destruct (batch_loop now results s') as [r s2 es]
      end; prog_cbn_in IH; prog_cbn_in Hbad; prog_cbn.
      destruct r as [[p|]|e]; [by apply elem_of_cons; right| |done].
      destruct IH as [Hall Hrec]. destruct Hbad as [Hsub _]. split.
      * intros t [->|Ht]%elem_of_cons; [done|by apply Hall].
      * intros t [->|Ht]%elem_of_cons; [|by apply Hrec].
        apply Hsub. rewrite Hb. set_solver.
Qed.

(** X11: the batch returns a proxy exactly when the check of at least one
    of its candidates succeeds, whatever the order of completion; when it
    returns [None], every candidate has been recorded in the bad set. *)
Theorem batch_finds_a_working_proxy w now l s :
  ((∃ p, res (_test_proxy_batch w now l s) = Ok (Some p)) ↔
   (∃ p, EvCheck p true ∈ evs (_test_proxy_batch w now l s))) ∧
  (res (_test_proxy_batch w now l s) = Ok None →
   ∀ p, p ∈ l → p ∈ bad_of now (st (_test_proxy_batch w now l s))).
Proof.
  pose proof (_test_proxy_batch_some w now l s) as Hsome.
  destruct (_test_proxy_batch_run w now l s)
    as (tasks & results & Hfst & Hperm & Hrun).
  rewrite Hrun in Hsome |- *. cbn [res st evs] in Hsome |- *.
  pose proof (batch_loop_result now results
                (MkState (cache s) (fetches s) (probes s + length l) (S (batches s))))
    as Hres.
  pose proof (batch_loop_events now results []
                (MkState (cache s) (fetches s) (probes s + length l) (S (batches s))))
    as Hev.
  split; [split|].
  - intros [p Hp]. exists p. by apply Hsome.
  - intros [p Hp].
    apply elem_of_cons in Hp as [Hp|Hp]; [done|].
    apply elem_of_app in Hp as [Hp|Hp].
    + apply list_elem_of_fmap in Hp as ([q b] & Heq & Hin). simplify_eq/=.
      destruct (res (batch_loop now results _)) as [[p'|]|e]; [by exists p'| |done].
      destruct Hres as [Hall _]. rewrite <- Hperm in Hin.
      by specialize (Hall _ Hin).
    + rewrite Forall_forall in Hev. specialize (Hev _ Hp). cbn in Hev.
      by apply elem_of_nil in Hev.
  - intros Hnone. rewrite Hnone in Hres. destruct Hres as [_ Hrec].
    intros p Hp. rewrite <- Hfst in Hp.
    apply list_elem_of_fmap in Hp as (t & -> & Ht).
    apply Hrec. by rewrite Hperm.
Qed.

(** ** A negative batch size *)

(** With a negative [batch_size] the batch is always called, and
    [max_attempts] is negative: the sequential loop makes no check. *)
Lemma test_candidates_negative cfg w now (l : list string) s :
  batch_size cfg < 0 →
  batched (evs (test_candidates cfg w now l s)) = [l] ∧
  checked (evs (test_candidates cfg w now l s)) ≡ₚ l.
Proof.
  intros Hbs. split.
  { rewrite test_candidates_batched.
    assert (Hle : (batch_size cfg <=? Z.of_nat (length l)) = true).
    { apply Z.leb_le. lia. }
    by rewrite Hle. }
  destruct (test_candidates_cases cfg w now l s)
    as [[Hb _]|[(_ & r & Hr & _ & ->)|(_ & r & Hr & _ & ->)]];
    [apply Z.leb_gt in Hb; lia| |];
    cbn [res st evs].
  - apply _test_proxy_batch_checked.
  - rewrite checked_app, _test_proxy_batch_checked.
    pose proof (sequential_loop_first w now l 0
                  (Z.min (batch_size cfg) (Z.of_nat (length l)))
                  (st (_test_proxy_batch w now l s))) as H.
    destruct (res (sequential_loop w now l 0 _ _)) as [[p|]|e]; [| |done].
    + destruct H as (i & Hi & _). lia.
    + destruct H as [_ ->].
      assert (Z.to_nat (Z.min (batch_size cfg) (Z.of_nat (length l)) - 0) = 0%nat)
        as -> by lia.
      cbn [take]. by rewrite app_nil_r.
Qed.

(** X12: with a negative [batch_size], of absolute value [k], a call that
    reads the list, fetched or cached, takes as candidates the list (less
    the bad proxies) without its last [k] entries; the batch is called once,
    on these, and the proxies checked are these, each once, in some order:
    the sequential loop checks none. *)
Theorem negative_batch_size_only_batches cfg w now s url listed :
  batch_size cfg < 0 →
  proxy_url cfg = Some url →
  (slot_get now (http_proxies_requested (cache s)) = Some listed ∨
   slot_get now (http_proxies_requested (cache s)) = None ∧
   ∃ response_json, source w (fetches s) = inr response_json ∧
                    parse_proxies w response_json = inr listed) →
  let l := fresh_list now s listed in
  let all_proxies := take (length l - Z.to_nat (- batch_size cfg)) l in
  batched (evs (_fetch_proxy cfg w now s)) = [all_proxies] ∧
  checked (evs (_fetch_proxy cfg w now s)) ≡ₚ all_proxies.
Proof.
  intros Hbs Hurl Hlist l all_proxies.
  assert (Hslice : slice_to l (batch_size cfg) = all_proxies).
  { unfold slice_to. by assert ((0 <=? batch_size cfg) = false) as -> by lia. }
  destruct Hlist as [Hhit|(Hmiss & rj & Hsrc & Hparse)].
  - rewrite (_fetch_proxy_cached cfg w now s url listed Hurl Hhit).
    fold l. rewrite Hslice. by apply test_candidates_negative.
  - rewrite (_fetch_proxy_fresh cfg w now s url rj listed Hurl Hmiss Hsrc Hparse).
    fold l. rewrite Hslice. cbn [evs].
    rewrite batched_app, batched_fresh_events, checked_app, checked_fresh_events.
    cbn [app]. by apply test_candidates_negative.
Qed.

(** ** Instances of the further properties *)

(** The one proxy of the source works: it is returned, checked and cached. *)
Lemma returned_proxy_checked_and_cached_witness :
  EvCheck "1.2.3.4:8080" true ∈
    evs (get_proxy small_cfg (one_proxy_world true) 0 (init_state empty_cache)) ∧
  slot_get 0 (working_proxy
                (cache (st (get_proxy small_cfg (one_proxy_world true) 0
                              (init_state empty_cache))))) = Some "1.2.3.4:8080".
Proof.
  apply (returned_proxy_checked_and_cached small_cfg (one_proxy_world true) 0
           (init_state empty_cache) "1.2.3.4:8080").
  vm_compute. reflexivity.
Defined.

(** The bad set found in the cache is still there after a call. *)
Lemma bad_set_grows_by_failed_checks_witness :
  bad_of 0 (init_state one_bad_cache) ⊆
    bad_of 0 (st (get_proxy small_cfg two_proxies_world 0 (init_state one_bad_cache))).
Proof.
  exact (proj1 (bad_set_grows_by_failed_checks small_cfg two_proxies_world 0
                  (init_state one_bad_cache))).
Defined.

(** Both proxies of the source fail: both are in the bad set afterwards. *)
Lemma exhausted_candidates_are_bad_witness :
  "5.6.7.8:3128" ∈
    bad_of 0 (st (_fetch_proxy small_cfg two_proxies_world 0 (init_state empty_cache))).
Proof.
  apply (exhausted_candidates_are_bad small_cfg two_proxies_world 0
           (init_state empty_cache) example_url two_endpoints).
  - vm_compute. discriminate.
  - reflexivity.
  - right. split; [reflexivity|]. exists two_proxies. split; reflexivity.
  - vm_compute. reflexivity.
  - change ("5.6.7.8:3128" ∈ ["1.2.3.4:8080"; "5.6.7.8:3128"]).
    apply list_elem_of_further, list_elem_of_here.
Defined.

Lemma get_proxy_check_count_witness :
  Z.of_nat (length (checked (evs (get_proxy small_cfg two_proxies_world 0
                                    (init_state scenario_b_cache))))) ≤ 21.
Proof.
  apply (get_proxy_check_count small_cfg two_proxies_world 0
           (init_state scenario_b_cache)).
  vm_compute. discriminate.
Defined.


(** Scenario A: the record under 172.67 is left out, the order is kept. *)
Lemma parse_proxies_spec_witness :
  (∃ parsed,
     parse_proxies (plain_world (inr scenario_a) false) scenario_a = inr parsed ∧
     kept ["1.2.3.4:8080"; "172.67.1.1:8080"] parsed) ∧
  parse_proxies (plain_world (inr scenario_a) false)
    (JArr [obj "1.2.3.4:8080"; JObj [("proxy", JNum "8080")]; JNull]) =
    inl TypeError ∧
  parse_proxies (plain_world (inr scenario_a) false) (JBool true) = inl TypeError.
Proof.
  destruct (parse_proxies_spec (plain_world (inr scenario_a) false))
    as (Hrecords & Herror & Hscalar & _).
  assert (Hobj : ∀ p, proxy_of (obj p) (JStr p)).
  { intros p. exists [], []. split; [reflexivity|]. by intros ?%elem_of_nil. }
  split; [|split].
  - apply Hrecords. repeat constructor; apply Hobj.
  - apply Herror.
    exists [obj "1.2.3.4:8080"], (JObj [("proxy", JNum "8080")]), [JNull].
    split; [reflexivity|]. split.
    + repeat constructor. exists (JStr "1.2.3.4:8080"). split; [apply Hobj|].
      by intros [?|[[? ?]|[? ?]]].
    + apply (proxy_is_scalar _ (JNum "8080")).
      * exists [], []. split; [reflexivity|]. by intros ?%elem_of_nil.
      * right. right. by exists "8080".
  - apply Hscalar. right. left. by exists true.
Defined.

(** Two later calls within the day: no fetch. *)
Lemma cached_list_reused_witness :
  fetched (run_calls small_cfg two_proxies_world [60; 3600]
             (init_state listed_cache)).2 = [] ∧
  fetches (run_calls small_cfg two_proxies_world [60; 3600]
             (init_state listed_cache)).1 = 0%nat ∧
  http_proxies_requested
    (cache (run_calls small_cfg two_proxies_world [60; 3600]
              (init_state listed_cache)).1) = Some listed_entry.
Proof.
  apply (cached_list_reused small_cfg two_proxies_world (init_state listed_cache)
           listed_entry [60; 3600]).
  - reflexivity.
  - repeat constructor.
Defined.


(** Scenario B with a proxy that works: two calls, two checks. *)
Lemma healthy_cached_proxy_reused_witness :
  (run_calls default_cfg (one_proxy_world true) [60; 3600]
     (init_state scenario_b_cache)).2 =
    [EvCheck "5.6.7.8:3128" true; EvCheck "5.6.7.8:3128" true].
Proof.
  destruct (healthy_cached_proxy_reused default_cfg (one_proxy_world true)
              "5.6.7.8:3128" (init_state scenario_b_cache) [60; 3600] 7200)
    as (_ & Hev & _).
  - reflexivity.
  - intros n _. reflexivity.
  - exact Hev.
Defined.

(** Both candidates fail in the batch: both are recorded. *)
Lemma batch_finds_a_working_proxy_witness :
  "1.2.3.4:8080" ∈
    bad_of 0 (st (_test_proxy_batch two_proxies_world 0 two_endpoints
                    (init_state empty_cache))).
Proof.
  apply (proj2 (batch_finds_a_working_proxy two_proxies_world 0 two_endpoints
                  (init_state empty_cache))).
  - vm_compute. reflexivity.
  - apply list_elem_of_here.
Defined.

(** [batch_size] -1: the last of the two entries is dropped. *)
Lemma negative_batch_size_only_batches_witness :
  batched (evs (_fetch_proxy negative_cfg two_proxies_world 0
                  (init_state empty_cache))) = [["1.2.3.4:8080"]] ∧
  checked (evs (_fetch_proxy negative_cfg two_proxies_world 0
                  (init_state empty_cache))) ≡ₚ ["1.2.3.4:8080"].
Proof.
  apply (negative_batch_size_only_batches negative_cfg two_proxies_world 0
           (init_state empty_cache) example_url two_endpoints).
  - reflexivity.
  - reflexivity.
  - right. split; [reflexivity|]. exists two_proxies. split; reflexivity.
Defined.
